(** * Facets: counting the faces of a simplicial complex given by its facets

    A shallow embedding of [Source.cpp] (program "Facets") and the
    verification of its enumeration kernel.

    The program reads base sets [A_1, ..., A_n] (subsets of [{0,...,63}],
    one per line of a text file), and for every [k] counts the [k]-element
    sets contained in at least one [A_i].

    Conventions of the embedding.
    - [unsigned long long] values are integers of [Z] in [[0, 2^64)]; the
      program combines them with [|], [&] and [^] only, which never leave
      that range, and builds them with [1ULL << x].
    - [int] values that can leave their range ([size], the cells of
      [numbers_of_subsets]) are integers of [Z] checked against the 32-bit
      range; counters that only step upwards from zero inside an array
      bound ([number], [i], [j], [index]) are natural numbers.
    - The static arrays are lists of their declared length; reading or
      writing outside of an array, shifting by a count outside [[0,63]] and
      signed overflow have no defined behaviour in C++ and end the run with
      the outcome [Undefined].
    - [while (subset != set)] has no syntactic bound; it is run with a fuel
      argument and ends with [OutOfFuel] when the fuel does not suffice.
    - A text file is the list of its lines, and a line is the list of the
      integers that the successive calls of [First_element] return on it.
    - [int] is 32 bits wide, as on the x64 targets the program is written
      for.

    The first part of the file holds the definitions: the program, then
    the notions its properties are stated with.  The second part holds
    the proofs. *)

From Stdlib Require Import ZArith Lia Bool Ascii String.
From stdpp Require Import base tactics option numbers list.

Local Open Scope Z_scope.

(** ** Outcomes of a run *)

Inductive outcome (A : Type) : Type :=
| Done (a : A)
| Undefined
| OutOfFuel.

Arguments Done {A} a.
Arguments Undefined {A}.
Arguments OutOfFuel {A}.

#[global] Instance outcome_ret : MRet outcome := @Done.
#[global] Instance outcome_bind : MBind outcome := λ A B f m,
  match m with
  | Done a => f a
  | Undefined => Undefined
  | OutOfFuel => OutOfFuel
  end.

(** ** Machine arithmetic *)

Definition INT_MIN : Z := - 2 ^ 31.
Definition INT_MAX : Z := 2 ^ 31 - 1.

(** The result of a signed [int] operation: defined only inside the range. *)
Definition int_result (z : Z) : outcome Z :=
  if (INT_MIN <=? z) && (z <=? INT_MAX) then Done z else Undefined.

(** [1ULL << x] for an [int x]. *)
Definition shift_one (x : Z) : outcome Z :=
  if (0 <=? x) && (x <? 64) then Done (Z.shiftl 1 x) else Undefined.

(** ** Static arrays *)

Definition load {A} (a : list A) (i : nat) : outcome A :=
  match a !! i with
  | Some v => Done v
  | None => Undefined
  end.

Definition store {A} (a : list A) (i : nat) (v : A) : outcome (list A) :=
  if decide (i < length a)%nat then Done (<[i := v]> a) else Undefined.

(** An array cell addressed by an [int] that may be negative. *)
Definition load_at {A} (a : list A) (z : Z) : outcome A :=
  if z <? 0 then Undefined else load a (Z.to_nat z).

Definition store_at {A} (a : list A) (z : Z) (v : A) : outcome (list A) :=
  if z <? 0 then Undefined else store a (Z.to_nat z) v.

(** ** Global data of the program *)

Definition MAX_NUMBER : nat := 1000.

Record globals : Type := Globals {
  number : nat;                     (* int number *)
  sets : list Z;                    (* unsigned long long sets[MAX_NUMBER] *)
  sequences : list (list Z);        (* unsigned long long sequences[MAX_NUMBER][64] *)
  numbers_of_subsets : list Z       (* int numbers_of_subsets[65] *)
}.

(** Static storage is zero-initialised. *)
Definition initial : globals :=
  {| number := 0;
     sets := replicate MAX_NUMBER 0;
     sequences := replicate MAX_NUMBER (replicate 64 0);
     numbers_of_subsets := replicate 65 0 |}.

Definition set_histogram (st : globals) (h : list Z) : globals :=
  {| number := number st; sets := sets st; sequences := sequences st;
     numbers_of_subsets := h |}.

(** ** Read_input *)

(** [sequences[number][index] = set] *)
Definition store_sequence (seqs : list (list Z)) (n index : nat) (v : Z)
  : outcome (list (list Z)) :=
  row ← load seqs n;
  row' ← store row index v;
  store seqs n row'.

(** The loop [while (line != "")] over the elements of one line. *)
Fixpoint read_elements (line : list Z) (n : nat) (set : Z) (index : nat)
    (seqs : list (list Z)) : outcome (Z * list (list Z)) :=
  match line with
  | [] => Done (set, seqs)
  | x :: line' =>
      b ← shift_one x;
      let set := Z.lor set b in
      seqs ← store_sequence seqs n index set;
      read_elements line' n set (S index) seqs
  end.

(** The loop [while (getline(file, line))]. *)
Fixpoint read_lines (lines : list (list Z)) (st : globals) : outcome globals :=
  match lines with
  | [] => Done st
  | line :: lines' =>
      '(set, seqs) ← read_elements line (number st) 0 0%nat (sequences st);
      sets' ← store (sets st) (number st) set;
      read_lines lines'
        {| number := S (number st); sets := sets'; sequences := seqs;
           numbers_of_subsets := numbers_of_subsets st |}
  end.

(** [file] is [None] when the file cannot be opened. *)
Definition Read_input (file : option (list (list Z))) (st : globals)
  : outcome (bool * globals) :=
  match file with
  | None => Done (false, st)
  | Some lines =>
      st' ← read_lines lines
        {| number := 0; sets := sets st; sequences := sequences st;
           numbers_of_subsets := numbers_of_subsets st |};
      Done (true, st')
  end.

(** [Read_input] returned [false]: the only failure it can report. *)
Definition reports_failure (r : outcome (bool * globals)) : bool :=
  match r with
  | Done (false, _) => true
  | _ => false
  end.

(** ** Compute_numbers *)

(** [for (int j = 0; j < i; j++) if ((subset & sets[j]) == subset) ...]:
    [n] counts the iterations that are left, [j + n = i]. *)
Fixpoint contained_from (ss : list Z) (subset : Z) (j n : nat) : outcome bool :=
  match n with
  | O => Done false
  | S n' =>
      s ← load ss j;
      if Z.land subset s =? subset then Done true
      else contained_from ss subset (S j) n'
  end.

Definition contained_in_previous (ss : list Z) (subset : Z) (i : nat)
  : outcome bool :=
  contained_from ss subset 0 i.

(** [numbers_of_subsets[size]++] *)
Definition increment (h : list Z) (size : Z) : outcome (list Z) :=
  v ← load_at h size;
  v' ← int_result (v + 1);
  store_at h size v'.

(** [if (!contained) numbers_of_subsets[size]++] *)
Definition count_if_new (contained : bool) (h : list Z) (size : Z)
  : outcome (list Z) :=
  if contained then Done h else increment h size.

(** [while ((subset | sequences[i][index]) == subset) index++]: the cells
    of the row are read one after the other from [index] on; [rest] is the
    part of the row not yet read. *)
Fixpoint search (rest : list Z) (subset : Z) (index : nat) : outcome nat :=
  match rest with
  | [] => Undefined
  | s :: rest' =>
      if Z.lor subset s =? subset then search rest' subset (S index)
      else Done index
  end.

(** Lines 135-139: the successor of [subset] and the refreshed [size]. *)
Definition successor (seqs : list (list Z)) (i : nat) (subset size : Z)
  : outcome (Z * Z) :=
  row ← load seqs i;
  index ← search row subset 0;
  s ← load row index;
  size' ← int_result (size - (Z.of_nat index - 1));
  Done (Z.lxor subset s, size').

(** The loop [while (subset != set)], lines 124-140. *)
Fixpoint enumerate (fuel : nat) (ss : list Z) (seqs : list (list Z)) (i : nat)
    (set subset size : Z) (h : list Z) : outcome (Z * list Z) :=
  if subset =? set then Done (size, h)
  else match fuel with
       | O => OutOfFuel
       | S fuel' =>
           contained ← contained_in_previous ss subset i;
           h ← count_if_new contained h size;
           '(subset', size') ← successor seqs i subset size;
           enumerate fuel' ss seqs i set subset' size' h
       end.

(** The body of [for (int i = 0; i < number; i++)], lines 121-148. *)
Definition process_set (fuel : nat) (st : globals) (i : nat) : outcome globals :=
  set ← load (sets st) i;
  '(size, h) ← enumerate fuel (sets st) (sequences st) i set 0 0
                 (numbers_of_subsets st);
  contained ← contained_in_previous (sets st) set i;
  h ← count_if_new contained h size;
  Done (set_histogram st h).

Fixpoint process_from (fuel : nat) (st : globals) (i n : nat) : outcome globals :=
  match n with
  | O => Done st
  | S n' =>
      st' ← process_set fuel st i;
      process_from fuel st' (S i) n'
  end.

Definition Compute_numbers (fuel : nat) (st : globals) : outcome globals :=
  process_from fuel st 0 (number st).

(** ** Write_output *)

(** The numbers written by [for (int i = 0; i <= 64; i++)]: the cells up to
    the first zero. *)
Fixpoint written (h : list Z) : list Z :=
  match h with
  | [] => []
  | v :: h' => if v =? 0 then [] else v :: written h'
  end.

(** [writable] tells whether the output file can be opened. *)
Definition Write_output (writable : bool) (st : globals) : bool * list Z :=
  if writable then (true, written (take 65 (numbers_of_subsets st)))
  else (false, []).

(** ** main: the load phase, the computation and the output *)

(** The result is [None] when the input file cannot be read, and the final
    data with what [Write_output] returns and writes otherwise. *)
Definition main (fuel : nat) (file : option (list (list Z))) (writable : bool)
  : outcome (option (globals * (bool * list Z))) :=
  '(ok, st) ← Read_input file initial;
  if ok : bool then
    st' ← Compute_numbers fuel st;
    Done (Some (st', Write_output writable st'))
  else Done None.

(** The histogram after a run of the program on the given lines. *)
Definition histogram (fuel : nat) (lines : list (list Z)) : outcome (list Z) :=
  r ← main fuel (Some lines) true;
  match r with
  | Some (st, _) => Done (numbers_of_subsets st)
  | None => Undefined
  end.

(** The numbers it writes to the output file. *)
Definition output (fuel : nat) (lines : list (list Z)) : outcome (list Z) :=
  r ← main fuel (Some lines) true;
  match r with
  | Some (_, (_, numbers)) => Done numbers
  | None => Undefined
  end.

(** The example of the program description, and two smaller inputs. *)
Definition scenario_A : list (list Z) := [[1; 3; 5; 6]; [2; 4; 5; 16; 20]; [0; 2; 5]].
Definition scenario_B : list (list Z) := [[0; 1; 2]].
Definition scenario_C : list (list Z) := [[0; 1]; [0; 1]].

(** A single base set with the 34 elements 0, ..., 33. *)
Definition thirty_four : list (list Z) := [seqZ 0 34].

(** ** Sets of elements and their bit masks *)

Definition bit (e : Z) : Z := Z.shiftl 1 e.

(** [e] is an element of the set with bit mask [X]. *)
Definition has (X e : Z) : Prop := Z.testbit X e = true.

(** [X] is a subset of [A]: the test [(X & A) == X] of the program. *)
Definition submask (X A : Z) : Prop := Z.land X A = X.

#[global] Instance has_dec X e : Decision (has X e).
Proof. unfold has. apply _. Defined.
#[global] Instance submask_dec X A : Decision (submask X A).
Proof. unfold submask. apply _. Defined.

(** The value of [set] after the elements [es] were added to [acc]. *)
Definition mask_from (acc : Z) (es : list Z) : Z :=
  foldl (λ a e, Z.lor a (bit e)) acc es.

Definition mask (es : list Z) : Z := mask_from 0 es.

(** The cells [sequences[number][index ...]] written for the elements [es]. *)
Fixpoint prefixes_from (acc : Z) (es : list Z) : list Z :=
  match es with
  | [] => []
  | e :: es' => Z.lor acc (bit e) :: prefixes_from (Z.lor acc (bit e)) es'
  end.

Definition prefixes (es : list Z) : list Z := prefixes_from 0 es.

(** The number of elements of a subset of [{0,...,63}]. *)
Definition popcount (X : Z) : Z :=
  Z.of_nat (length (filter (has X) (seqZ 0 64))).

(** The elements of a subset of [{0,...,63}], in increasing order. *)
Definition elements_of (A : Z) : list Z := filter (has A) (seqZ 0 64).

(** The subsets of the set listed by [es], in the order in which the
    program runs through them: a binary counter whose lowest digit is the
    first element of the line. *)
Fixpoint subsets (es : list Z) : list Z :=
  match es with
  | [] => [0]
  | e :: es' => Y ← subsets es'; [Y; Z.lor Y (bit e)]
  end.

(** [X] is a subset of one of the sets [prev]. *)
Definition covered (prev : list Z) (X : Z) : Prop := Exists (submask X) prev.

(** ** Inputs *)

(** A line lists distinct elements of [{0,...,63}]. *)
Definition wf_line (es : list Z) : Prop :=
  NoDup es ∧ Forall (λ e, 0 ≤ e < 64) es.

(** What the arrays can take: at most [MAX_NUMBER] lines, at most 64
    numbers on a line, each of them in [{0,...,63}]. *)
Definition within_capacity (lines : list (list Z)) : Prop :=
  (length lines ≤ MAX_NUMBER)%nat ∧
  Forall (λ es, (length es ≤ 64)%nat ∧ Forall (λ e, 0 ≤ e < 64) es) lines.

#[global] Instance within_capacity_dec lines : Decision (within_capacity lines).
Proof. unfold within_capacity. apply _. Defined.

(** The inputs of the program description: at most [MAX_NUMBER] nonempty
    subsets of [{0,...,63}]. *)
Definition valid_input (lines : list (list Z)) : Prop :=
  (length lines ≤ MAX_NUMBER)%nat ∧
  Forall (λ es, es ≠ [] ∧ wf_line es) lines.

#[global] Instance wf_line_dec es : Decision (wf_line es).
Proof. unfold wf_line. apply _. Defined.

#[global] Instance valid_input_dec lines : Decision (valid_input lines).
Proof. unfold valid_input. apply _. Defined.

(** Decides a closed decidable proposition by evaluation. *)
Ltac by_decision := apply (bool_decide_unpack _); vm_compute; exact I.

(** The arrays have their declared sizes. *)
Definition arrays_ok (st : globals) : Prop :=
  length (sets st) = MAX_NUMBER ∧
  length (sequences st) = MAX_NUMBER ∧
  Forall (λ row, length row = 64%nat) (sequences st).

(** The arrays hold the data of [lines]. *)
Definition loaded (lines : list (list Z)) (st : globals) : Prop :=
  number st = length lines ∧
  ∀ i es, lines !! i = Some es →
    sets st !! i = Some (mask es) ∧
    ∃ tail, sequences st !! i = Some (prefixes es ++ tail).

(** ** The numbers to compute *)

(** All sets contained in one of the sets [masks], each listed once. *)
Definition faces (masks : list Z) : list Z :=
  remove_dups (A ← masks; subsets (elements_of A)).

(** The number of sets with [k] elements contained in one of [masks]. *)
Definition count (masks : list Z) (k : nat) : Z :=
  Z.of_nat (length (filter (λ X, popcount X = Z.of_nat k) (faces masks))).

Definition expected (masks : list Z) : list Z :=
  count masks <$> seq 0 65.

(** Every number to compute can be held by an [int]. *)
Definition fits (masks : list Z) : Prop :=
  Forall (λ c, c ≤ INT_MAX) (expected masks).

#[global] Instance fits_dec masks : Decision (fits masks).
Proof. unfold fits. apply _. Defined.

(** Binomial coefficients, row by row of Pascal's triangle. *)
Fixpoint pascal (n : nat) : list Z :=
  match n with
  | O => [1]
  | S n' => let row := pascal n' in zip_with Z.add (0 :: row) (row ++ [0])
  end.

Definition binomial (n k : nat) : Z := default 0 (pascal n !! k).

(** ** The run through the subsets of one base set *)

(** The values that [subset] and [size] take at the test of
    [while (subset != set)], in order. *)
Fixpoint walk (fuel : nat) (seqs : list (list Z)) (i : nat) (set subset size : Z)
  : outcome (list (Z * Z)) :=
  if subset =? set then Done [(subset, size)]
  else match fuel with
       | O => OutOfFuel
       | S fuel' =>
           '(subset', size') ← successor seqs i subset size;
           rest ← walk fuel' seqs i set subset' size';
           Done ((subset, size) :: rest)
       end.

(** The increments of the histogram for the subsets [Xs] of one base set,
    [prev] being the sets before it. *)
Fixpoint tally (prev : list Z) (h : list Z) (Xs : list Z) : outcome (list Z) :=
  match Xs with
  | [] => Done h
  | X :: Xs' =>
      h' ← count_if_new (bool_decide (covered prev X)) h (popcount X);
      tally prev h' Xs'
  end.

(** The subsets of the lines [rest] that are counted, [prev] being the sets
    of the lines before. *)
Fixpoint counted (prev : list Z) (rest : list (list Z)) : list Z :=
  match rest with
  | [] => []
  | es :: rest' =>
      filter (λ X, ¬ covered prev X) (subsets es)
      ++ counted (prev ++ [mask es]) rest'
  end.

(** A run that increments the cells [sizes] one after the other. *)
Fixpoint bump (h : list Z) (sizes : list Z) : outcome (list Z) :=
  match sizes with
  | [] => Done h
  | s :: sizes' => h' ← increment h s; bump h' sizes'
  end.

(** Fuel that suffices for the loops over the subsets of all lines. *)
Definition enough_fuel (lines : list (list Z)) : nat :=
  length (lines ≫= subsets).

(** How often the cell [k] is stepped by [sizes]. *)
Definition occurrences (k : nat) (sizes : list Z) : Z :=
  Z.of_nat (length (filter (λ s, s = Z.of_nat k) sizes)).

(** The histogram [h] with every cell stepped as often as [sizes] says. *)
Definition stepped (h : list Z) (sizes : list Z) : list Z :=
  imap (λ k v, v + occurrences k sizes) h.

(** Consecutive elements of a list are related by [R], and the list ends
    with [final]. *)
Inductive chain (R : Z → Z → Prop) (final : Z) : list Z → Prop :=
| chain_last : chain R final [final]
| chain_step X X' L :
    R X X' → chain R final (X' :: L) → chain R final (X :: X' :: L).

(** [X'] is the successor of [X] with respect to the line [es]: the first
    element [e] of [es] that is not in [X] is added and the elements before
    it are removed. *)
Definition linked (es : list Z) (X X' : Z) : Prop :=
  ∃ pre e post,
    es = pre ++ e :: post ∧
    Forall (has X) pre ∧ ¬ has X e ∧
    X' = Z.lxor X (mask (pre ++ [e])) ∧
    popcount X' = popcount X - (Z.of_nat (length pre) - 1).

(** * The input as text *)

(** A string is the list of its characters.  [First_element] converts a
    piece of the line with [x_stream >> x], where [x] is declared without
    a value.  What the stream library does with a given string is the
    argument [to_int] of the definitions below: [Some v] when it writes
    [v] to [x], and [None] when it writes nothing; [First_element] then
    returns an indeterminate value, which is undefined behaviour. *)

Definition comma : ascii := ","%char.

(** [csstring.find(",")]: the position of the first comma, [None] for
    [std::string::npos]. *)
Fixpoint find_comma (s : list ascii) : option nat :=
  match s with
  | [] => None
  | c :: s' => if Ascii.eqb c comma then Some 0%nat else S <$> find_comma s'
  end.

(** The value in [x] after [int x; x_stream >> x;]. *)
Definition or_undefined {A} (written : option A) : outcome A :=
  match written with
  | Some v => Done v
  | None => Undefined
  end.

(** The result is the value returned and the string left in [csstring]. *)
Definition First_element (to_int : list ascii → option Z)
    (csstring : list ascii) : outcome (Z * list ascii) :=
  let '(x_string, csstring') :=
    match find_comma csstring with
    | None => (csstring, [])
    | Some pos =>
        let x_string := take pos csstring in
        (x_string, drop (length x_string + 1) csstring)
    end in
  x ← or_undefined (to_int x_string);
  Done (x, csstring').

(** The loop [while (line != "")] of [Read_input] on the text of a line. *)
Fixpoint read_text_elements (to_int : list ascii → option Z) (fuel : nat)
    (line : list ascii) (n : nat) (set : Z) (index : nat)
    (seqs : list (list Z)) : outcome (Z * list (list Z)) :=
  match line with
  | [] => Done (set, seqs)
  | _ :: _ =>
      match fuel with
      | O => OutOfFuel
      | S fuel' =>
          '(x, line') ← First_element to_int line;
          b ← shift_one x;
          let set := Z.lor set b in
          seqs ← store_sequence seqs n index set;
          read_text_elements to_int fuel' line' n set (S index) seqs
      end
  end.

Fixpoint read_text_lines (to_int : list ascii → option Z) (fuel : nat)
    (lines : list (list ascii)) (st : globals) : outcome globals :=
  match lines with
  | [] => Done st
  | line :: lines' =>
      '(set, seqs) ← read_text_elements to_int fuel line (number st) 0 0%nat
                       (sequences st);
      sets' ← store (sets st) (number st) set;
      read_text_lines to_int fuel lines'
        {| number := S (number st); sets := sets'; sequences := seqs;
           numbers_of_subsets := numbers_of_subsets st |}
  end.

(** [Read_input] on a file given by the text of its lines. *)
Definition Read_input_text (to_int : list ascii → option Z) (fuel : nat)
    (file : option (list (list ascii))) (st : globals)
  : outcome (bool * globals) :=
  match file with
  | None => Done (false, st)
  | Some lines =>
      st' ← read_text_lines to_int fuel lines
        {| number := 0; sets := sets st; sequences := sequences st;
           numbers_of_subsets := numbers_of_subsets st |};
      Done (true, st')
  end.

(** [main] on text. *)
Definition main_text (to_int : list ascii → option Z) (fuel : nat)
    (file : option (list (list ascii))) (writable : bool)
  : outcome (option (globals * (bool * list Z))) :=
  '(ok, st) ← Read_input_text to_int fuel file initial;
  if ok : bool then
    st' ← Compute_numbers fuel st;
    Done (Some (st', Write_output writable st'))
  else Done None.

(** The values that the calls of [First_element] in the loop
    [while (line != "")] return, in order. *)
Fixpoint line_elements (to_int : list ascii → option Z) (fuel : nat)
    (line : list ascii) : outcome (list Z) :=
  match line with
  | [] => Done []
  | _ :: _ =>
      match fuel with
      | O => OutOfFuel
      | S fuel' =>
          '(x, line') ← First_element to_int line;
          xs ← line_elements to_int fuel' line';
          Done (x :: xs)
      end
  end.

(** The pieces of a string between its commas. *)
Fixpoint split_commas (s : list ascii) : list (list ascii) :=
  match s with
  | [] => [[]]
  | c :: s' =>
      if Ascii.eqb c comma then [] :: split_commas s'
      else match split_commas s' with
           | p :: ps => (c :: p) :: ps
           | [] => [[c]]
           end
  end.

(** The pieces joined by commas. *)
Fixpoint join_commas (ps : list (list ascii)) : list ascii :=
  match ps with
  | [] => []
  | [p] => p
  | p :: ps' => p ++ comma :: join_commas ps'
  end.

(** The pieces of a line that are converted: all of them but an empty
    last piece (an empty line, or the piece after a comma that ends the
    line). *)
Definition tokens (line : list ascii) : list (list ascii) :=
  let ps := split_commas line in
  match last ps with
  | Some [] => removelast ps
  | _ => ps
  end.

(** The numbers of a line, when every piece that is converted gives one. *)
Definition parse_line (to_int : list ascii → option Z) (line : list ascii)
  : option (list Z) :=
  mapM to_int (tokens line).

Definition parse_lines (to_int : list ascii → option Z)
    (lines : list (list ascii)) : option (list (list Z)) :=
  mapM (parse_line to_int) lines.

(** ** The stream library on a piece

    [x_stream >> x] for an [int x], in the "C" locale and with the default
    flags: white space is skipped first, and when nothing is left the
    extraction fails before anything is written.  Otherwise a sign and the
    decimal digits that follow are read; without a digit the value written
    is 0, and a value outside of the range of [int] is replaced by the
    nearest end of the range. *)

Definition is_space (c : ascii) : bool :=
  let n := nat_of_ascii c in
  (n =? 32)%nat || ((9 <=? n)%nat && (n <=? 13)%nat).

Fixpoint skip_spaces (s : list ascii) : list ascii :=
  match s with
  | [] => []
  | c :: s' => if is_space c then skip_spaces s' else s
  end.

Definition digit_value (c : ascii) : option Z :=
  let n := Z.of_nat (nat_of_ascii c) in
  if (48 <=? n) && (n <=? 57) then Some (n - 48) else None.

(** The value of the digits at the start of [s], after the digits [acc]. *)
Fixpoint digits_from (acc : Z) (s : list ascii) : Z :=
  match s with
  | [] => acc
  | c :: s' =>
      match digit_value c with
      | Some d => digits_from (10 * acc + d) s'
      | None => acc
      end
  end.

Definition starts_with_digit (s : list ascii) : bool :=
  match s with
  | c :: _ => bool_decide (is_Some (digit_value c))
  | [] => false
  end.

Definition saturate (v : Z) : Z := Z.max INT_MIN (Z.min INT_MAX v).

Definition extract (s : list ascii) : option Z :=
  match skip_spaces s with
  | [] => None
  | c :: s' =>
      let '(negative, field) :=
        if Ascii.eqb c "-"%char then (true, s')
        else if Ascii.eqb c "+"%char then (false, s')
        else (false, c :: s') in
      if starts_with_digit field
      then Some (saturate (if negative : bool then - digits_from 0 field
                           else digits_from 0 field))
      else Some 0
  end.

(** The characters of a string literal. *)
Definition text (s : String.string) : list ascii := String.list_ascii_of_string s.

(** The input file of the program description. *)
Definition scenario_A_text : list (list ascii) :=
  [text "1,3,5,6"%string; text "2,4,5,16,20"%string; text "0,2,5"%string].

(** The largest number of elements of a line. *)
Definition largest (lines : list (list Z)) : nat :=
  foldr (λ es d, Nat.max (length es) d) 0%nat lines.

(** The histogram [h'] has the cells of [h], none of them smaller. *)
Definition grows (h h' : list Z) : Prop :=
  length h' = length h ∧
  ∀ k v, h !! k = Some v → ∃ v', h' !! k = Some v' ∧ v ≤ v'.


(** * Runs on small inputs *)

Example scenario_A_run :
  histogram 100 scenario_A = Done ([1; 9; 18; 15; 6; 1] ++ replicate 59 0).
Proof. vm_compute. reflexivity. Qed.

Example scenario_A_output : output 100 scenario_A = Done [1; 9; 18; 15; 6; 1].
Proof. vm_compute. reflexivity. Qed.

Example pascal_4 : pascal 4 = [1; 4; 6; 4; 1].
Proof. reflexivity. Qed.

Example subsets_order : subsets [1; 5; 2] = [0; 2; 32; 34; 4; 6; 36; 38].
Proof. reflexivity. Qed.

Example count_scenario_A :
  expected (mask <$> scenario_A) = [1; 9; 18; 15; 6; 1] ++ replicate 59 0.
Proof. vm_compute. reflexivity. Qed.

(** * Properties *)

(** ** Bit masks *)

Section Bits.
Implicit Types X Y A e i : Z.

Lemma testbit_bit e i : 0 ≤ e → Z.testbit (bit e) i = bool_decide (e = i).
Proof.
  intros He. unfold bit. rewrite Z.shiftl_1_l, Z.pow2_bits_eqb by done.
  case_bool_decide; lia.
Qed.

Lemma has_bit e i : 0 ≤ e → has (bit e) i ↔ e = i.
Proof.
  intros He. unfold has. rewrite testbit_bit by done.
  by rewrite bool_decide_eq_true.
Qed.

Lemma has_lor X Y i : has (Z.lor X Y) i ↔ has X i ∨ has Y i.
Proof. unfold has. rewrite Z.lor_spec. apply orb_true_iff. Qed.

Lemma has_lxor X Y i :
  has (Z.lxor X Y) i ↔ (has X i ∧ ¬ has Y i) ∨ (¬ has X i ∧ has Y i).
Proof.
  unfold has. rewrite Z.lxor_spec.
  destruct (Z.testbit X i), (Z.testbit Y i); simpl; intuition congruence.
Qed.

Lemma has_zero i : ¬ has 0 i.
Proof. unfold has. by rewrite Z.bits_0. Qed.

Lemma has_nonneg X i : has X i → 0 ≤ i.
Proof.
  unfold has. intros H. destruct (decide (0 ≤ i)) as [|Hn]; [done|].
  rewrite Z.testbit_neg_r in H by lia. done.
Qed.

Lemma bit_nonneg e : 0 ≤ bit e.
Proof. unfold bit. by apply Z.shiftl_nonneg. Qed.

(** Two masks with the same elements are equal. *)
Lemma has_ext X Y : (∀ i, has X i ↔ has Y i) → X = Y.
Proof.
  intros H. apply Z.bits_inj'. intros i _. specialize (H i). unfold has in H.
  destruct (Z.testbit X i), (Z.testbit Y i); intuition congruence.
Qed.

Lemma submask_has X A : submask X A ↔ ∀ i, has X i → has A i.
Proof.
  unfold submask. split.
  - intros H i Hi. unfold has in *. rewrite <- H, Z.land_spec in Hi.
    by apply andb_true_iff in Hi as [_ ?].
  - intros H. apply Z.bits_inj'. intros i _. rewrite Z.land_spec.
    specialize (H i). unfold has in H.
    destruct (Z.testbit X i); [|done]. by rewrite H.
Qed.

Lemma submask_refl X : submask X X.
Proof. by apply submask_has. Qed.

Lemma submask_trans X Y A : submask X Y → submask Y A → submask X A.
Proof. rewrite !submask_has. auto. Qed.

Lemma submask_zero X : submask 0 X.
Proof. apply submask_has. intros i Hi. by apply has_zero in Hi. Qed.

(** The test [(subset | s) == subset] of the search loop. *)
Lemma lor_absorb X S : Z.lor X S = X ↔ submask S X.
Proof.
  rewrite submask_has. split.
  - intros H i Hi. rewrite <- H. apply has_lor. by right.
  - intros H. apply has_ext. intros i. rewrite has_lor. specialize (H i). tauto.
Qed.

(** A nonnegative mask without elements from 64 on is a 64-bit value. *)
Lemma mask_bound X : 0 ≤ X → (∀ i, has X i → i < 64) → X < 2 ^ 64.
Proof.
  intros H0 H. destruct (decide (X = 0)) as [->|]; [done|].
  assert (Hl : has X (Z.log2 X)) by (apply Z.bit_log2; lia).
  apply H in Hl. apply Z.log2_lt_pow2; lia.
Qed.

Lemma has_bound X i : 0 ≤ X < 2 ^ 64 → has X i → 0 ≤ i < 64.
Proof.
  intros HX Hi. split; [by eapply has_nonneg|].
  destruct (decide (i < 64)) as [|Hn]; [done|]. unfold has in Hi.
  rewrite Z.bits_above_log2 in Hi; [done|lia|].
  destruct (decide (X = 0)) as [->|]; [simpl; lia|].
  assert (Z.log2 X < 64) by (apply Z.log2_lt_pow2; lia). lia.
Qed.

Lemma mask_from_lor acc es : mask_from acc es = Z.lor acc (mask es).
Proof.
  unfold mask, mask_from. revert acc.
  induction es as [|e es IH] using rev_ind; intros acc; simpl.
  - by rewrite Z.lor_0_r.
  - by rewrite !foldl_snoc, IH, Z.lor_assoc.
Qed.

Lemma mask_nil : mask [] = 0.
Proof. done. Qed.

Lemma mask_cons e es : mask (e :: es) = Z.lor (bit e) (mask es).
Proof.
  unfold mask at 1. simpl. fold (mask_from (Z.lor 0 (bit e)) es).
  by rewrite mask_from_lor, Z.lor_0_l.
Qed.

Lemma mask_snoc es e : mask (es ++ [e]) = Z.lor (mask es) (bit e).
Proof. unfold mask, mask_from. by rewrite foldl_snoc. Qed.

Lemma has_mask es i : Forall (λ e, 0 ≤ e) es → has (mask es) i ↔ i ∈ es.
Proof.
  induction 1 as [|e es He _ IH].
  - rewrite mask_nil. split; [by intros ?%has_zero|by intros ?%elem_of_nil].
  - rewrite mask_cons, has_lor, has_bit, IH, elem_of_cons by done.
    intuition congruence.
Qed.

Lemma mask_nonneg es : 0 ≤ mask es.
Proof.
  induction es as [|e es IH]; [done|].
  rewrite mask_cons. apply Z.lor_nonneg. split; [apply bit_nonneg|done].
Qed.

Lemma wf_line_nonneg es : wf_line es → Forall (λ e, 0 ≤ e) es.
Proof. intros [_ H]. eapply Forall_impl; [exact H|]. simpl. intros; lia. Qed.

Lemma mask_range es : wf_line es → 0 ≤ mask es < 2 ^ 64.
Proof.
  intros Hwf. split; [apply mask_nonneg|].
  apply mask_bound; [apply mask_nonneg|]. intros i Hi.
  apply has_mask in Hi; [|by apply wf_line_nonneg].
  destruct Hwf as [_ Hr]. rewrite Forall_forall in Hr. apply Hr in Hi. lia.
Qed.

Lemma submask_nonneg_bound X A : 0 ≤ X → submask X A → 0 ≤ A < 2 ^ 64 → X < 2 ^ 64.
Proof.
  intros H0 Hs HA. apply mask_bound; [done|]. intros i Hi.
  rewrite submask_has in Hs. apply Hs in Hi. by apply (has_bound A).
Qed.

End Bits.

(** ** The number of elements of a set *)

Section Popcount.
Implicit Types X Y A e i : Z.

Lemma has_ldiff X Y i : has (Z.ldiff X Y) i ↔ has X i ∧ ¬ has Y i.
Proof.
  unfold has. rewrite Z.ldiff_spec.
  destruct (Z.testbit X i), (Z.testbit Y i); simpl; intuition congruence.
Qed.

Lemma length_filter_add (l : list Z) Y e :
  NoDup l → 0 ≤ e → ¬ has Y e →
  length (filter (has (Z.lor Y (bit e))) l)
  = (length (filter (has Y) l) + (if decide (e ∈ l) then 1 else 0))%nat.
Proof.
  intros Hl He HY. induction Hl as [|x l Hx Hl IH]; [done|].
  rewrite !filter_cons, (decide_ext _ _ _ _ (has_lor Y (bit e) x)).
  destruct (decide (x = e)) as [->|Hne].
  - rewrite decide_True by (right; by apply has_bit).
    rewrite (decide_False (P := has Y e)) by done.
    rewrite (decide_True (P := e ∈ e :: l)) by (apply elem_of_cons; by left).
    rewrite decide_False in IH by done. simpl. lia.
  - assert (Hiff : has Y x ∨ has (bit e) x ↔ has Y x).
    { rewrite has_bit by done. intuition congruence. }
    rewrite (decide_ext _ _ _ _ Hiff).
    assert (Hin : e ∈ x :: l ↔ e ∈ l).
    { rewrite elem_of_cons. intuition congruence. }
    rewrite (decide_ext _ _ _ _ Hin).
    destruct (decide (has Y x)); simpl; lia.
Qed.

Lemma popcount_add Y e :
  0 ≤ e < 64 → ¬ has Y e → popcount (Z.lor Y (bit e)) = popcount Y + 1.
Proof.
  intros He HY. unfold popcount.
  rewrite length_filter_add; [|apply NoDup_seqZ|lia|done].
  rewrite decide_True by (apply elem_of_seqZ; lia). lia.
Qed.

Lemma popcount_zero : popcount 0 = 0.
Proof. reflexivity. Qed.

Lemma popcount_range X : 0 ≤ popcount X ≤ 64.
Proof.
  unfold popcount. split; [lia|].
  pose proof (length_filter (has X) (seqZ 0 64)) as H.
  rewrite length_seqZ in H. lia.
Qed.

(** A set with a positive number of elements has an element. *)
Lemma popcount_pos_has X : 0 < popcount X → ∃ e, 0 ≤ e < 64 ∧ has X e.
Proof.
  unfold popcount. intros H.
  destruct (filter (has X) (seqZ 0 64)) as [|e l] eqn:E; [simpl in H; lia|].
  assert (He : e ∈ filter (has X) (seqZ 0 64)) by (rewrite E; left).
  apply list_elem_of_filter in He as [? He%elem_of_seqZ]. exists e. split; [lia|done].
Qed.

(** Removing an element. *)
Lemma remove_add X e :
  0 ≤ e → has X e → X = Z.lor (Z.ldiff X (bit e)) (bit e).
Proof.
  intros He HX. apply has_ext. intros i.
  rewrite has_lor, has_ldiff, has_bit by done.
  destruct (decide (e = i)) as [<-|]; tauto.
Qed.

Lemma popcount_remove X e :
  0 ≤ e < 64 → has X e → popcount (Z.ldiff X (bit e)) = popcount X - 1.
Proof.
  intros He HX. rewrite (remove_add X e) at 2 by (done || lia).
  rewrite popcount_add; [lia|done|].
  rewrite has_ldiff, has_bit by lia. tauto.
Qed.

End Popcount.

(** ** The order of the subsets *)

Section Subsets.
Implicit Types X Y A e i : Z.
Implicit Types es : list Z.

Lemma subsets_cons e es :
  subsets (e :: es) = subsets es ≫= λ Y, [Y; Z.lor Y (bit e)].
Proof. done. Qed.

Lemma elem_of_subsets es X :
  Forall (λ e, 0 ≤ e) es → X ∈ subsets es ↔ 0 ≤ X ∧ submask X (mask es).
Proof.
  intros Hes. revert X. induction Hes as [|e es He Hes IH]; intros X.
  - simpl. rewrite list_elem_of_singleton, mask_nil. split.
    + intros ->. split; [done|apply submask_zero].
    + intros [_ H]. unfold submask in H. by rewrite Z.land_0_r in H.
  - rewrite subsets_cons, list_elem_of_bind, mask_cons. split.
    + intros (Y & HX & [HY0 HY]%IH). rewrite submask_has in HY.
      apply elem_of_cons in HX as [->|HX%list_elem_of_singleton].
      * split; [done|]. apply submask_has. intros i Hi. apply has_lor. auto.
      * subst X. split.
        { apply Z.lor_nonneg. split; [done|apply bit_nonneg]. }
        apply submask_has. intros i. rewrite !has_lor. intuition.
    + intros [HX0 HX]. rewrite submask_has in HX.
      exists (Z.ldiff X (bit e)). split.
      * destruct (decide (has X e)) as [Hin|Hout].
        { apply elem_of_cons. right. apply list_elem_of_singleton.
          by apply remove_add. }
        apply elem_of_cons. left. apply has_ext. intros i.
        rewrite has_ldiff, has_bit by done.
        destruct (decide (e = i)) as [<-|]; tauto.
      * apply IH. split; [apply Z.ldiff_nonneg; auto|].
        apply submask_has. intros i [Hi Hne]%has_ldiff.
        apply HX, has_lor in Hi. tauto.
Qed.

Lemma subsets_lacks es X e :
  Forall (λ e, 0 ≤ e) es → e ∉ es → X ∈ subsets es → ¬ has X e.
Proof.
  intros Hes He [_ HX]%elem_of_subsets Hin; [|done].
  rewrite submask_has in HX. apply HX, has_mask in Hin; done.
Qed.

Lemma NoDup_subsets es :
  NoDup es → Forall (λ e, 0 ≤ e) es → NoDup (subsets es).
Proof.
  induction 1 as [|e es He Hnd IH]; intros Hes.
  - apply NoDup_singleton.
  - apply Forall_cons in Hes as [He0 Hes]. rewrite subsets_cons.
    assert (Hlacks : ∀ Y, Y ∈ subsets es → ¬ has Y e)
      by (intros Y; by apply subsets_lacks).
    assert (Hback : ∀ Y Z', Y ∈ subsets es → Z' ∈ [Y; Z.lor Y (bit e)] →
              Y = Z.ldiff Z' (bit e)).
    { intros Y Z' HY HZ. apply Hlacks in HY. apply has_ext. intros i.
      rewrite has_ldiff, has_bit by done.
      apply elem_of_cons in HZ as [->|HZ%list_elem_of_singleton].
      - destruct (decide (e = i)) as [<-|]; tauto.
      - subst Z'. rewrite has_lor, has_bit by done.
        destruct (decide (e = i)) as [<-|]; tauto. }
    apply NoDup_bind; [| |by apply IH].
    + intros Y1 Y2 Z' H1 H2 HZ1 HZ2.
      transitivity (Z.ldiff Z' (bit e)); [by apply Hback|symmetry; by apply Hback].
    + intros Y HY. apply NoDup_cons. split; [|apply NoDup_singleton].
      intros Heq%list_elem_of_singleton. apply (Hlacks Y HY).
      rewrite Heq. apply has_lor. right. by apply has_bit.
Qed.

Lemma length_subsets es : length (subsets es) = (2 ^ length es)%nat.
Proof.
  induction es as [|e es IH]; [done|].
  rewrite subsets_cons. simpl length.
  assert (H : ∀ l : list Z, length (l ≫= λ Y, [Y; Z.lor Y (bit e)])
              = (2 * length l)%nat).
  { induction l as [|x l IHl]; [done|]. csimpl in *. rewrite IHl. lia. }
  rewrite H, IH. rewrite Nat.pow_succ_r'. lia.
Qed.

Lemma subsets_not_nil es : subsets es ≠ [].
Proof.
  intros H. pose proof (length_subsets es) as Hl. rewrite H in Hl. simpl in Hl.
  pose proof (Nat.pow_nonzero 2 (length es)). lia.
Qed.

End Subsets.

(** ** The successor of a subset *)

Section Successor.
Implicit Types X Y A e i : Z.
Implicit Types es pre post : list Z.

Lemma lxor_add Y e : 0 ≤ e → ¬ has Y e → Z.lxor Y (bit e) = Z.lor Y (bit e).
Proof.
  intros He HY. apply has_ext. intros i. rewrite has_lxor, has_lor, has_bit by done.
  destruct (decide (e = i)) as [<-|]; tauto.
Qed.

(** The first element of the line is not in the subset: it is added. *)
Lemma linked_first e es Y :
  0 ≤ e < 64 → ¬ has Y e → linked (e :: es) Y (Z.lor Y (bit e)).
Proof.
  intros He HY. exists [], e, es. split_and!; [done|constructor|done| |].
  - simpl. unfold mask, mask_from. simpl. rewrite Z.lor_0_l.
    symmetry. apply lxor_add; [lia|done].
  - rewrite popcount_add by done. simpl. lia.
Qed.

(** The first element of the line is in the subset: it is removed, and the
    rest of the line decides. *)
Lemma linked_carry e es Y Y' :
  0 ≤ e < 64 → e ∉ es → Forall (λ e, 0 ≤ e) es → ¬ has Y e →
  linked es Y Y' → linked (e :: es) (Z.lor Y (bit e)) Y'.
Proof.
  intros He Hfresh Hes HY (pre & e' & post & -> & Hpre & He' & -> & Hcount).
  assert (Hsub : Forall (λ e, 0 ≤ e) (pre ++ [e'])).
  { apply Forall_app in Hes as [? [? _]%Forall_cons]. apply Forall_app. auto. }
  assert (HM : ¬ has (mask (pre ++ [e'])) e).
  { rewrite has_mask by done. intros Hin. apply Hfresh.
    rewrite elem_of_app, elem_of_cons.
    apply elem_of_app in Hin as [?|?%list_elem_of_singleton]; auto. }
  exists (e :: pre), e', post. split_and!.
  - done.
  - constructor.
    + apply has_lor. right. apply has_bit; [lia|done].
    + eapply Forall_impl; [exact Hpre|]. intros x Hx. apply has_lor. by left.
  - rewrite has_lor, has_bit by lia. intros [?| ->]; [done|].
    apply Hfresh. rewrite elem_of_app, elem_of_cons. auto.
  - change ((e :: pre) ++ [e']) with (e :: (pre ++ [e'])). rewrite mask_cons.
    apply has_ext. intros i. rewrite !has_lxor, !has_lor, has_bit by lia.
    destruct (decide (e = i)) as [<-|]; tauto.
  - rewrite Hcount, popcount_add by done. simpl length. lia.
Qed.

Lemma chain_double e es L :
  0 ≤ e < 64 → e ∉ es → Forall (λ e, 0 ≤ e) es →
  Forall (λ Y, ¬ has Y e) L →
  chain (linked es) (mask es) L →
  chain (linked (e :: es)) (mask (e :: es)) (L ≫= λ Y, [Y; Z.lor Y (bit e)]).
Proof.
  intros He Hfresh Hes HL Hchain.
  induction Hchain as [|X X' L Hlink Hchain IH].
  - apply Forall_cons in HL as [HX _]. csimpl.
    apply chain_step; [by apply linked_first|].
    rewrite mask_cons, Z.lor_comm. apply chain_last.
  - apply Forall_cons in HL as [HX HL]. csimpl.
    apply chain_step; [by apply linked_first|].
    apply chain_step; [by apply linked_carry|].
    by apply IH.
Qed.

(** The subsets of a line, in their order, are linked one to the next and
    end with the whole set. *)
Lemma chain_subsets es :
  wf_line es → chain (linked es) (mask es) (subsets es).
Proof.
  intros [Hnd Hr]. induction Hnd as [|e es He Hnd IH].
  - apply chain_last.
  - apply Forall_cons in Hr as [He0 Hr].
    assert (Hes : Forall (λ e, 0 ≤ e) es) by (by apply wf_line_nonneg).
    rewrite subsets_cons. apply chain_double; [done..| |by apply IH].
    apply Forall_forall. intros Y HY. by eapply subsets_lacks.
Qed.

Lemma linked_not_final es X X' :
  Forall (λ e, 0 ≤ e) es → linked es X X' → X ≠ mask es.
Proof.
  intros Hes (pre & e & post & -> & _ & He & _) ->. apply He.
  apply has_mask; [done|]. rewrite elem_of_app, elem_of_cons. auto.
Qed.

(** Every member of a chain but the last has a successor in it. *)
Lemma chain_next R final L X :
  chain R final L → X ∈ L → X ≠ final → ∃ X', X' ∈ L ∧ R X X'.
Proof.
  induction 1 as [|Y Y' L HR Hchain IH]; intros Hin Hne.
  - by apply list_elem_of_singleton in Hin.
  - apply elem_of_cons in Hin as [->|Hin].
    + exists Y'. split; [|done]. apply elem_of_cons. right. apply elem_of_cons. by left.
    + destruct (IH Hin Hne) as (X' & ? & ?). exists X'. split; [|done].
      apply elem_of_cons. by right.
Qed.

Lemma chain_last_eq R final L : chain R final L → last L = Some final.
Proof. induction 1 as [|X X' L _ _ IH]; [done|]. by rewrite last_cons, IH. Qed.

Lemma chain_head_length R final L : chain R final L → (0 < length L)%nat.
Proof. destruct 1; simpl; lia. Qed.

(** What the search loop and the update compute is the [linked] successor. *)

Lemma prefixes_from_lookup acc pre e post :
  prefixes_from acc (pre ++ e :: post) !! length pre
  = Some (mask_from acc (pre ++ [e])).
Proof.
  revert acc. induction pre as [|p pre IH]; intros acc; [done|].
  simpl. by rewrite IH.
Qed.

Lemma search_found acc pre e post tail X index :
  Forall (λ e, 0 ≤ e) (pre ++ e :: post) →
  submask acc X → Forall (has X) pre → ¬ has X e →
  search (prefixes_from acc (pre ++ e :: post) ++ tail) X index
  = Done (index + length pre)%nat.
Proof.
  revert acc index. induction pre as [|p pre IH]; intros acc index Hr Hacc Hpre He.
  - apply Forall_cons in Hr as [He0 _]. simpl.
    rewrite (proj2 (Z.eqb_neq _ _)); [f_equal; lia|].
    rewrite lor_absorb, submask_has. intros H. apply He, H.
    apply has_lor. right. by apply has_bit.
  - apply Forall_cons in Hr as [Hp0 Hr]. apply Forall_cons in Hpre as [Hp Hpre].
    assert (Hacc' : submask (Z.lor acc (bit p)) X).
    { rewrite submask_has in *. intros i [?|<-%has_bit]%has_lor; auto. }
    simpl. rewrite (proj2 (Z.eqb_eq _ _)) by (by apply lor_absorb).
    rewrite IH by done. f_equal. lia.
Qed.

Lemma successor_linked seqs (n : nat) es tail X X' :
  Forall (λ e, 0 ≤ e) es →
  seqs !! n = Some (prefixes es ++ tail) →
  linked es X X' →
  successor seqs n X (popcount X) = Done (X', popcount X').
Proof.
  intros Hes Hrow (pre & e & post & -> & Hpre & He & -> & Hcount).
  unfold successor, load. rewrite Hrow. csimpl. unfold prefixes.
  rewrite search_found by (done || apply submask_zero). csimpl.
  rewrite lookup_app_l.
  2:{ apply lookup_lt_is_Some. rewrite prefixes_from_lookup. eauto. }
  rewrite prefixes_from_lookup. csimpl. rewrite <- Hcount.
  unfold int_result, INT_MIN, INT_MAX.
  pose proof (popcount_range (Z.lxor X (mask (pre ++ [e])))) as Hrange.
  rewrite andb_true_intro by (split; apply Z.leb_le; lia). done.
Qed.

End Successor.

(** ** The loop over the subsets of one base set *)

Section Loop.
Implicit Types X Y A : Z.
Implicit Types es : list Z.
Implicit Types h ss prev : list Z.
Implicit Types seqs : list (list Z).
Implicit Types n j fuel : nat.

Lemma outcome_bind_done {T} (m : outcome T) : m ≫= Done = m.
Proof. by destruct m. Qed.

Lemma outcome_bind_assoc {T U V} (m : outcome T) (f : T → outcome U)
    (g : U → outcome V) :
  (m ≫= f) ≫= g = m ≫= (λ a, f a ≫= g).
Proof. by destruct m. Qed.

(** The scan of the previous sets decides [covered]. *)
Lemma contained_from_covered ss X j prev :
  (∀ k A, prev !! k = Some A → ss !! (j + k)%nat = Some A) →
  contained_from ss X j (length prev) = Done (bool_decide (covered prev X)).
Proof.
  revert j. induction prev as [|A prev IH]; intros j Hss.
  - cbn [contained_from length]. rewrite bool_decide_eq_false_2; [done|].
    unfold covered. intros H. by apply Exists_nil in H.
  - cbn [contained_from length]. unfold load. rewrite <- (Nat.add_0_r j) at 1.
    rewrite (Hss 0%nat A) by done. csimpl.
    destruct (Z.eqb_spec (Z.land X A) X) as [Heq|Hne].
    + rewrite bool_decide_eq_true_2; [done|]. by apply Exists_cons_hd.
    + rewrite IH.
      * f_equal. apply bool_decide_ext. unfold covered.
        rewrite Exists_cons. unfold submask at 2. tauto.
      * intros k B Hk. rewrite <- (Hss (S k) B) by done. f_equal. lia.
Qed.

Lemma contained_in_previous_covered ss X prev :
  (∀ k A, prev !! k = Some A → ss !! k = Some A) →
  contained_in_previous ss X (length prev)
  = Done (bool_decide (covered prev X)).
Proof. intros H. by apply contained_from_covered. Qed.

Lemma subsets_head es : ∃ L, subsets es = 0 :: L.
Proof.
  induction es as [|e es [L IH]]; [by exists []|].
  rewrite subsets_cons, IH. csimpl. eauto.
Qed.

(** The values of [subset] and [size] along a chain. *)
Lemma walk_chain es seqs n tail X L fuel :
  Forall (λ e, 0 ≤ e) es →
  seqs !! n = Some (prefixes es ++ tail) →
  chain (linked es) (mask es) (X :: L) →
  (length L ≤ fuel)%nat →
  walk fuel seqs n (mask es) X (popcount X)
  = Done ((λ Y, (Y, popcount Y)) <$> X :: L).
Proof.
  intros Hes Hrow. revert X fuel.
  induction L as [|X' L IH]; intros X fuel Hchain Hfuel.
  - inversion Hchain; subst. destruct fuel; simpl; by rewrite Z.eqb_refl.
  - inversion Hchain as [|? ? ? Hlink Hchain']; subst.
    destruct fuel as [|fuel]; [simpl in Hfuel; lia|].
    simpl. rewrite (proj2 (Z.eqb_neq _ _)) by (by eapply linked_not_final).
    erewrite successor_linked by done. csimpl.
    rewrite IH by (done || simpl in Hfuel; lia). done.
Qed.

(** The histogram after the loop and the check that follows it. *)
Lemma enumerate_chain es ss seqs n tail prev X L fuel h :
  Forall (λ e, 0 ≤ e) es →
  seqs !! n = Some (prefixes es ++ tail) →
  (∀ Y, contained_in_previous ss Y n = Done (bool_decide (covered prev Y))) →
  chain (linked es) (mask es) (X :: L) →
  (length L ≤ fuel)%nat →
  (enumerate fuel ss seqs n (mask es) X (popcount X) h
     ≫= λ '(size, h'),
          count_if_new (bool_decide (covered prev (mask es))) h' size)
  = tally prev h (X :: L).
Proof.
  intros Hes Hrow Hprev. revert X fuel h.
  induction L as [|X' L IH]; intros X fuel h Hchain Hfuel.
  - inversion Hchain; subst.
    assert (E : enumerate fuel ss seqs n (mask es) (mask es)
                  (popcount (mask es)) h = Done (popcount (mask es), h)).
    { destruct fuel; simpl; by rewrite Z.eqb_refl. }
    rewrite E. csimpl. by rewrite outcome_bind_done.
  - inversion Hchain as [|? ? ? Hlink Hchain']; subst.
    destruct fuel as [|fuel]; [simpl in Hfuel; lia|].
    simpl. rewrite (proj2 (Z.eqb_neq _ _)) by (by eapply linked_not_final).
    rewrite Hprev. csimpl.
    destruct (count_if_new _ h (popcount X)) as [h1| |]; csimpl; [|done..].
    erewrite successor_linked by done. csimpl.
    apply IH; [done|simpl in Hfuel; lia].
Qed.

(** One base set: the histogram is stepped for every subset, in order. *)
Lemma process_set_tally fuel st n es tail prev :
  wf_line es →
  sets st !! n = Some (mask es) →
  sequences st !! n = Some (prefixes es ++ tail) →
  (∀ Y, contained_in_previous (sets st) Y n
        = Done (bool_decide (covered prev Y))) →
  (length (subsets es) ≤ fuel)%nat →
  process_set fuel st n
  = h ← tally prev (numbers_of_subsets st) (subsets es);
    Done (set_histogram st h).
Proof.
  intros Hwf Hset Hrow Hprev Hfuel.
  pose proof (chain_subsets es Hwf) as Hchain.
  destruct (subsets_head es) as [L HL]. rewrite HL in *.
  rewrite <- (enumerate_chain es (sets st) (sequences st) n tail prev 0 L fuel);
    [|by apply wf_line_nonneg|done..|simpl in Hfuel; lia].
  unfold process_set, load. rewrite Hset. csimpl. rewrite popcount_zero.
  destruct (enumerate _ _ _ _ _ _ _ _) as [[size h']| |]; csimpl; [|done..].
  by rewrite Hprev.
Qed.

(** Only the subsets not covered before step a cell. *)
Lemma tally_bump prev h Xs :
  tally prev h Xs
  = bump h (popcount <$> filter (λ X, ¬ covered prev X) Xs).
Proof.
  revert h. induction Xs as [|X Xs IH]; intros h; [done|].
  simpl. rewrite filter_cons. unfold count_if_new.
  case_bool_decide as Hc.
  - rewrite decide_False by tauto. csimpl. apply IH.
  - rewrite decide_True by done. csimpl.
    destruct (increment h (popcount X)); csimpl; [apply IH|done..].
Qed.

Lemma bump_app h l1 l2 : bump h (l1 ++ l2) = h' ← bump h l1; bump h' l2.
Proof.
  revert h. induction l1 as [|s l1 IH]; intros h; [done|].
  simpl. destruct (increment h s); csimpl; [apply IH|done..].
Qed.

Lemma loaded_set_histogram lines st h :
  loaded lines st → loaded lines (set_histogram st h).
Proof. done. Qed.

(** All base sets from number [length done] on. *)
Lemma process_from_bump fuel done rest st :
  loaded (done ++ rest) st →
  Forall wf_line rest →
  Forall (λ es, (length (subsets es) ≤ fuel)%nat) rest →
  process_from fuel st (length done) (length rest)
  = h ← bump (numbers_of_subsets st)
            (popcount <$> counted (mask <$> done) rest);
    Done (set_histogram st h).
Proof.
  revert done st. induction rest as [|es rest IH]; intros done st Hst Hwf Hfuel.
  - simpl. by destruct st.
  - apply Forall_cons in Hwf as [Hes Hwf].
    apply Forall_cons in Hfuel as [Hfes Hfuel].
    destruct Hst as [Hnum Hst].
    destruct (Hst (length done) es) as (Hset & tail & Hrow).
    { by rewrite list_lookup_middle. }
    simpl process_from.
    rewrite (process_set_tally fuel st (length done) es tail (mask <$> done));
      [|done..| |done].
    2:{ intros Y. rewrite <- (length_fmap mask done).
        apply contained_in_previous_covered. intros k A Hk.
        apply list_lookup_fmap_Some in Hk as (es' & -> & Hk).
        apply (Hst k es'). by apply lookup_app_l_Some. }
    rewrite tally_bump. simpl counted. rewrite fmap_app, bump_app.
    rewrite outcome_bind_assoc.
    destruct (bump (numbers_of_subsets st) _) as [h1| |]; csimpl; [|done..].
    replace (S (length done)) with (length (done ++ [es]))
      by (rewrite length_app; simpl; lia).
    rewrite IH; [|rewrite <- app_assoc; by split|done..].
    simpl. rewrite fmap_app. simpl.
    destruct (bump h1 _); csimpl; done.
Qed.

Lemma Compute_numbers_bump fuel lines st :
  loaded lines st →
  Forall wf_line lines →
  Forall (λ es, (length (subsets es) ≤ fuel)%nat) lines →
  Compute_numbers fuel st
  = h ← bump (numbers_of_subsets st) (popcount <$> counted [] lines);
    Done (set_histogram st h).
Proof.
  intros Hst Hwf Hfuel. unfold Compute_numbers.
  rewrite (proj1 Hst). by apply (process_from_bump fuel [] lines).
Qed.

End Loop.

(** ** Stepping the cells of the histogram *)

Section Bump.
Implicit Types h sizes : list Z.

Lemma occurrences_nonneg k sizes : 0 ≤ occurrences k sizes.
Proof. unfold occurrences. lia. Qed.

Lemma occurrences_cons k s sizes :
  occurrences k (s :: sizes)
  = (if decide (s = Z.of_nat k) then 1 else 0) + occurrences k sizes.
Proof.
  unfold occurrences. rewrite filter_cons.
  destruct (decide (s = Z.of_nat k)); simpl; lia.
Qed.

Lemma occurrences_app k l1 l2 :
  occurrences k (l1 ++ l2) = occurrences k l1 + occurrences k l2.
Proof. unfold occurrences. rewrite filter_app, length_app. lia. Qed.

Lemma stepped_lookup h sizes k :
  stepped h sizes !! k = (λ v, v + occurrences k sizes) <$> h !! k.
Proof. unfold stepped. by rewrite list_lookup_imap. Qed.

Lemma stepped_nil h : stepped h [] = h.
Proof.
  apply list_eq. intros k. rewrite stepped_lookup.
  destruct (h !! k) as [v|]; simpl; [|done].
  f_equal. unfold occurrences. simpl. lia.
Qed.

Lemma stepped_cons h s sizes v :
  0 ≤ s → h !! Z.to_nat s = Some v →
  stepped (<[Z.to_nat s := v + 1]> h) sizes = stepped h (s :: sizes).
Proof.
  intros Hs Hv. apply list_eq. intros k. rewrite !stepped_lookup.
  rewrite occurrences_cons.
  destruct (decide (k = Z.to_nat s)) as [->|Hne].
  - rewrite list_lookup_insert_eq by (by eapply lookup_lt_Some).
    rewrite Hv, decide_True by lia. simpl. f_equal. lia.
  - rewrite list_lookup_insert_ne by done.
    rewrite decide_False by lia.
    destruct (h !! k); simpl; f_equal; lia.
Qed.

(** A run of increments ends with the stepped histogram when all its
    cells are in the range of [int], and is undefined otherwise. *)
Lemma bump_spec h sizes :
  Forall (λ v, 0 ≤ v ≤ INT_MAX) h →
  Forall (λ s, 0 ≤ s < Z.of_nat (length h)) sizes →
  bump h sizes
  = if decide (Forall (λ c, c ≤ INT_MAX) (stepped h sizes))
    then Done (stepped h sizes) else Undefined.
Proof.
  intros Hh Hsizes. revert h Hh Hsizes.
  induction sizes as [|s sizes IH]; intros h Hh Hsizes.
  - simpl. rewrite stepped_nil. rewrite decide_True; [done|].
    eapply Forall_impl; [exact Hh|]. simpl. intros; lia.
  - apply Forall_cons in Hsizes as [Hs Hsizes].
    destruct (lookup_lt_is_Some_2 h (Z.to_nat s)) as [v Hv]; [lia|].
    assert (Hv0 : 0 ≤ v ≤ INT_MAX).
    { rewrite Forall_forall in Hh. apply Hh. by eapply list_elem_of_lookup_2. }
    simpl. unfold increment, load_at, store_at, load, store.
    rewrite (proj2 (Z.ltb_ge s 0)) by lia. rewrite Hv. csimpl.
    unfold int_result.
    destruct (decide (v + 1 ≤ INT_MAX)) as [Hle|Hgt].
    + rewrite andb_true_intro
        by (split; apply Z.leb_le; unfold INT_MIN, INT_MAX in *; lia).
      csimpl. rewrite decide_True by lia. csimpl.
      rewrite IH.
      * by rewrite (stepped_cons h s sizes v) by (lia || done).
      * apply Forall_insert; [done|lia].
      * by rewrite length_insert.
    + rewrite (proj2 (Z.leb_gt (v + 1) INT_MAX)) by lia. rewrite andb_false_r. csimpl.
      rewrite decide_False; [done|]. intros Hall.
      rewrite Forall_forall in Hall.
      assert (Hin : v + occurrences (Z.to_nat s) (s :: sizes)
                    ∈ stepped h (s :: sizes)).
      { apply list_elem_of_lookup. exists (Z.to_nat s).
        by rewrite stepped_lookup, Hv. }
      apply Hall in Hin. rewrite occurrences_cons, decide_True in Hin by lia.
      pose proof (occurrences_nonneg (Z.to_nat s) sizes). lia.
Qed.

Lemma stepped_zeros n sizes :
  stepped (replicate n 0) sizes = (λ k, occurrences k sizes) <$> seq 0 n.
Proof.
  apply list_eq. intros k. rewrite stepped_lookup, list_lookup_fmap.
  destruct (decide (k < n)%nat) as [Hlt|Hge].
  - rewrite lookup_replicate_2, lookup_seq_lt by done. simpl. f_equal.
  - assert (E : replicate n 0 !! k = None) by (apply lookup_replicate_None; lia).
    rewrite E, lookup_seq_ge by lia. done.
Qed.

Lemma occurrences_fmap {T} (f : T → Z) k (l : list T) :
  occurrences k (f <$> l)
  = Z.of_nat (length (filter (λ x, f x = Z.of_nat k) l)).
Proof.
  unfold occurrences. f_equal.
  induction l as [|x l IH]; [done|].
  csimpl. rewrite !filter_cons.
  destruct (decide (f x = Z.of_nat k)); simpl; by rewrite IH.
Qed.

End Bump.

(** ** The counted subsets are the sets to count *)

Section Counting.
Implicit Types X Y A : Z.
Implicit Types es : list Z.
Implicit Types prev masks : list Z.
Implicit Types rest lines : list (list Z).

Lemma covered_exists prev X : covered prev X ↔ ∃ A, A ∈ prev ∧ submask X A.
Proof. apply Exists_exists. Qed.

Lemma covered_snoc prev A X :
  covered (prev ++ [A]) X ↔ covered prev X ∨ submask X A.
Proof. unfold covered. rewrite Exists_app, Exists_cons, Exists_nil. tauto. Qed.

Lemma covered_nil X : ¬ covered [] X.
Proof. unfold covered. intros H. by apply Exists_nil in H. Qed.

Lemma elem_of_counted prev rest X :
  Forall wf_line rest →
  X ∈ counted prev rest
  ↔ ¬ covered prev X ∧ ∃ es, es ∈ rest ∧ X ∈ subsets es.
Proof.
  intros Hwf. revert prev. induction Hwf as [|es rest Hes Hwf IH]; intros prev.
  - simpl. rewrite elem_of_nil. split; [done|].
    intros (_ & es & []%elem_of_nil & _).
  - simpl. rewrite elem_of_app, list_elem_of_filter, IH, covered_snoc.
    pose proof (elem_of_subsets es X (wf_line_nonneg es Hes)) as Hin.
    split.
    + intros [[Hn HX]|[Hn (es' & Hes' & HX)]].
      * split; [done|]. exists es. split; [left|done].
      * split; [tauto|]. exists es'. split; [by right|done].
    + intros (Hn & es' & Hes' & HX).
      destruct (decide (X ∈ subsets es)) as [Hhere|Hnot]; [by left|].
      right. apply elem_of_cons in Hes' as [->|Hes']; [done|].
      split; [|by exists es'].
      intros [?|Hsub]; [done|]. apply Hnot, Hin. split; [|done].
      apply list_elem_of_lookup in Hes' as [i Hi].
      rewrite Forall_lookup in Hwf.
      by apply (elem_of_subsets es' X (wf_line_nonneg es' (Hwf i es' Hi))) in HX
        as [? _].
Qed.

Lemma NoDup_counted prev rest : Forall wf_line rest → NoDup (counted prev rest).
Proof.
  intros Hwf. revert prev. induction Hwf as [|es rest Hes Hwf IH]; intros prev.
  - constructor.
  - simpl. apply NoDup_app. split_and!.
    + apply NoDup_filter, NoDup_subsets; [apply Hes|by apply wf_line_nonneg].
    + intros X [_ HX]%list_elem_of_filter [Hn _]%elem_of_counted; [|done].
      apply Hn, covered_snoc. right.
      by apply (elem_of_subsets es X (wf_line_nonneg es Hes)) in HX as [_ ?].
    + apply IH.
Qed.

Lemma elements_of_range A : Forall (λ e, 0 ≤ e < 64) (elements_of A).
Proof.
  apply Forall_forall. intros e [_ He%elem_of_seqZ]%list_elem_of_filter. lia.
Qed.

Lemma wf_line_elements_of A : wf_line (elements_of A).
Proof.
  split; [|apply elements_of_range].
  apply NoDup_filter, NoDup_seqZ.
Qed.

Lemma mask_elements_of A : 0 ≤ A < 2 ^ 64 → mask (elements_of A) = A.
Proof.
  intros HA. apply has_ext. intros i.
  rewrite has_mask by apply wf_line_nonneg, wf_line_elements_of.
  unfold elements_of. rewrite list_elem_of_filter, elem_of_seqZ.
  split; [tauto|]. intros Hi. split; [done|].
  pose proof (has_bound A i HA Hi). lia.
Qed.

Lemma elem_of_faces masks X :
  Forall (λ A, 0 ≤ A < 2 ^ 64) masks →
  X ∈ faces masks ↔ 0 ≤ X ∧ covered masks X.
Proof.
  intros Hm. unfold faces.
  rewrite elem_of_remove_dups, list_elem_of_bind, covered_exists.
  rewrite Forall_forall in Hm. split.
  - intros (A & HX & HA).
    apply elem_of_subsets in HX as [? HX];
      [|apply wf_line_nonneg, wf_line_elements_of].
    rewrite mask_elements_of in HX by auto. eauto.
  - intros (HX & A & HA & Hsub). exists A. split; [|done].
    apply elem_of_subsets; [apply wf_line_nonneg, wf_line_elements_of|].
    rewrite mask_elements_of by auto. done.
Qed.

Lemma NoDup_faces masks : NoDup (faces masks).
Proof. apply NoDup_remove_dups. Qed.

Lemma masks_range lines :
  Forall wf_line lines → Forall (λ A, 0 ≤ A < 2 ^ 64) (mask <$> lines).
Proof.
  intros Hwf. apply Forall_fmap. eapply Forall_impl; [exact Hwf|].
  intros es. apply mask_range.
Qed.

(** The subsets counted by the program are the sets contained in a base
    set, each once. *)
Lemma counted_faces lines :
  Forall wf_line lines → counted [] lines ≡ₚ faces (mask <$> lines).
Proof.
  intros Hwf. apply NoDup_Permutation.
  - by apply NoDup_counted.
  - apply NoDup_faces.
  - intros X.
    rewrite elem_of_counted, elem_of_faces, (covered_exists (mask <$> lines))
      by (done || by apply masks_range).
    split.
    + intros (_ & es & Hes & HX).
      apply list_elem_of_lookup in Hes as [i Hi].
      pose proof (proj1 (Forall_lookup _ _) Hwf i es Hi) as Hes.
      apply (elem_of_subsets es X (wf_line_nonneg es Hes)) in HX as [? ?].
      split; [done|]. exists (mask es). split; [|done].
      apply list_elem_of_fmap. exists es. split; [done|].
      by eapply list_elem_of_lookup_2.
    + intros (HX & A & (es & -> & Hes)%list_elem_of_fmap & Hsub).
      split; [apply covered_nil|]. exists es. split; [done|].
      apply list_elem_of_lookup in Hes as [i Hi].
      pose proof (proj1 (Forall_lookup _ _) Hwf i es Hi) as Hes.
      by apply (elem_of_subsets es X (wf_line_nonneg es Hes)).
Qed.

Lemma occurrences_counted k lines :
  Forall wf_line lines →
  occurrences k (popcount <$> counted [] lines) = count (mask <$> lines) k.
Proof.
  intros Hwf. rewrite occurrences_fmap. unfold count.
  by rewrite (counted_faces lines Hwf).
Qed.

Lemma stepped_expected lines :
  Forall wf_line lines →
  stepped (replicate 65 0) (popcount <$> counted [] lines)
  = expected (mask <$> lines).
Proof.
  intros Hwf. rewrite stepped_zeros. unfold expected.
  apply list_fmap_ext. intros _ k _. by apply occurrences_counted.
Qed.

(** [count] is the length of any list without repetitions of the sets with
    [k] elements that are contained in one of the sets [masks]. *)
Lemma count_spec masks k (L : list Z) :
  Forall (λ A, 0 ≤ A < 2 ^ 64) masks →
  NoDup L →
  (∀ X, X ∈ L ↔ 0 ≤ X < 2 ^ 64 ∧ popcount X = Z.of_nat k ∧
                 ∃ A, A ∈ masks ∧ submask X A) →
  count masks k = Z.of_nat (length L).
Proof.
  intros Hm HL Hin. unfold count. f_equal. apply Permutation_length.
  apply NoDup_Permutation; [apply NoDup_filter, NoDup_faces|done|].
  intros X. rewrite list_elem_of_filter, elem_of_faces, covered_exists, Hin by done.
  split.
  - intros (Hk & HX & A & HA & Hsub). split_and!; [lia| |done|by exists A].
    eapply submask_nonneg_bound; [done..|].
    rewrite Forall_forall in Hm. by apply Hm.
  - intros ((HX & _) & Hk & A & HA & Hsub). split_and!; [done|done|by exists A].
Qed.

End Counting.

(** ** Read_input *)

Section Reading.
Implicit Types x e : Z.
Implicit Types line es row : list Z.
Implicit Types lines rest : list (list Z).
Implicit Types seqs : list (list Z).
Implicit Types n index : nat.

Lemma length_prefixes_from acc es : length (prefixes_from acc es) = length es.
Proof. revert acc. induction es as [|e es IH]; intros acc; simpl; by rewrite ?IH. Qed.

Lemma shift_one_in_range x : 0 ≤ x < 64 → shift_one x = Done (bit x).
Proof.
  intros Hx. unfold shift_one.
  by rewrite andb_true_intro by (split; [apply Z.leb_le|apply Z.ltb_lt]; lia).
Qed.

Lemma shift_one_out_of_range x : ¬ 0 ≤ x < 64 → shift_one x = Undefined.
Proof.
  intros Hx. unfold shift_one.
  destruct (Z.leb_spec 0 x), (Z.ltb_spec x 64); simpl; (done || lia).
Qed.

Lemma store_sequence_ok seqs n index row v :
  seqs !! n = Some row → (index < length row)%nat →
  store_sequence seqs n index v = Done (<[n := <[index := v]> row]> seqs).
Proof.
  intros Hrow Hlt. unfold store_sequence, load, store. rewrite Hrow. csimpl.
  rewrite decide_True by done. csimpl.
  rewrite decide_True by (by eapply lookup_lt_Some). done.
Qed.

Lemma store_sequence_row_full seqs n index row v :
  seqs !! n = Some row → (length row ≤ index)%nat →
  store_sequence seqs n index v = Undefined.
Proof.
  intros Hrow Hge. unfold store_sequence, load, store. rewrite Hrow. csimpl.
  rewrite decide_False by lia. done.
Qed.

Lemma store_sequence_no_row seqs n index v :
  seqs !! n = None → store_sequence seqs n index v = Undefined.
Proof. intros Hrow. unfold store_sequence, load. by rewrite Hrow. Qed.

(** The elements of a line that fits into its row. *)
Lemma read_elements_ok line n set index seqs row :
  seqs !! n = Some row →
  Forall (λ x, 0 ≤ x < 64) line →
  (index + length line ≤ length row)%nat →
  read_elements line n set index seqs
  = Done (mask_from set line,
          <[n := take index row ++ prefixes_from set line
                 ++ drop (index + length line) row]> seqs).
Proof.
  revert set index seqs row.
  induction line as [|x line IH]; intros set index seqs row Hrow Hr Hlen.
  - simpl. rewrite Nat.add_0_r, take_drop. by rewrite list_insert_id.
  - apply Forall_cons in Hr as [Hx Hr]. simpl in Hlen. simpl.
    rewrite shift_one_in_range by done. csimpl.
    assert (Hidx : (index < length row)%nat) by lia.
    rewrite (store_sequence_ok seqs n index row) by done. csimpl.
    rewrite (IH _ _ _ (<[index := Z.lor set (bit x)]> row)).
    + unfold mask_from. simpl. f_equal. f_equal.
      rewrite list_insert_insert_eq. f_equal.
      rewrite (take_S_r _ _ (Z.lor set (bit x)))
        by (apply list_lookup_insert_eq; lia).
      rewrite take_insert_ge by lia.
      rewrite drop_insert_lt by lia.
      rewrite <- app_assoc. simpl. by rewrite Nat.add_succ_r.
    + apply list_lookup_insert_eq. by eapply lookup_lt_Some.
    + done.
    + rewrite length_insert. lia.
Qed.

(** A line with a number outside of [{0,...,63}], or longer than its row. *)
Lemma read_elements_undefined line n set index seqs row :
  seqs !! n = Some row →
  (index ≤ length row)%nat →
  ¬ (Forall (λ x, 0 ≤ x < 64) line ∧ (index + length line ≤ length row)%nat) →
  read_elements line n set index seqs = Undefined.
Proof.
  revert set index seqs row.
  induction line as [|x line IH]; intros set index seqs row Hrow Hidx Hbad.
  - exfalso. apply Hbad. split; [constructor|simpl; lia].
  - simpl. destruct (decide (0 ≤ x < 64)) as [Hx|Hx].
    2:{ by rewrite shift_one_out_of_range. }
    rewrite shift_one_in_range by done. csimpl.
    destruct (decide (index < length row)%nat) as [Hlt|Hge].
    2:{ assert (Hfull : (length row ≤ index)%nat) by lia.
        by rewrite (store_sequence_row_full seqs n index row) by done. }
    rewrite (store_sequence_ok seqs n index row) by done. csimpl.
    apply (IH _ _ _ (<[index := Z.lor set (bit x)]> row)).
    + apply list_lookup_insert_eq. by eapply lookup_lt_Some.
    + rewrite length_insert. lia.
    + rewrite length_insert. intros [Hr Hlen]. apply Hbad.
      split; [by constructor|simpl; lia].
Qed.

(** A line for which there is no row left. *)
Lemma read_elements_no_row x line n set index seqs :
  seqs !! n = None →
  read_elements (x :: line) n set index seqs = Undefined.
Proof.
  intros Hrow. simpl. destruct (decide (0 ≤ x < 64)) as [Hx|Hx].
  - rewrite shift_one_in_range by done. csimpl.
    by rewrite store_sequence_no_row.
  - by rewrite shift_one_out_of_range.
Qed.

Lemma wf_line_length es : wf_line es → (length es ≤ 64)%nat.
Proof.
  intros [Hnd Hr]. rewrite Forall_forall in Hr.
  assert (Hsub : es ⊆+ seqZ 0 64).
  { apply NoDup_submseteq; [done|]. intros e He. apply elem_of_seqZ.
    apply Hr in He. lia. }
  apply submseteq_length in Hsub. by rewrite length_seqZ in Hsub.
Qed.

Lemma wf_within_capacity lines :
  (length lines ≤ MAX_NUMBER)%nat → Forall wf_line lines →
  within_capacity lines.
Proof.
  intros Hlen Hwf. split; [done|]. eapply Forall_impl; [exact Hwf|].
  intros es Hes. split; [by apply wf_line_length|apply Hes].
Qed.

Lemma valid_input_wf lines : valid_input lines → Forall wf_line lines.
Proof. intros [_ H]. eapply Forall_impl; [exact H|]. by intros es [_ ?]. Qed.

Lemma valid_within_capacity lines : valid_input lines → within_capacity lines.
Proof.
  intros H. apply wf_within_capacity; [apply H|by apply valid_input_wf].
Qed.

Lemma arrays_ok_initial : arrays_ok initial.
Proof.
  unfold arrays_ok, initial. cbn [sets sequences]. rewrite !length_replicate.
  split_and!; [done..|]. apply Forall_replicate. by rewrite length_replicate.
Qed.

Lemma loaded_nil st : number st = 0%nat → loaded [] st.
Proof. intros H. split; [done|]. intros i es Hi. by rewrite lookup_nil in Hi. Qed.

(** One more line, when there is room for it. *)
Lemma read_line_ok done line st :
  arrays_ok st → loaded done st →
  (length done < MAX_NUMBER)%nat →
  (length line ≤ 64)%nat → Forall (λ x, 0 ≤ x < 64) line →
  ∃ seqs' sets',
    read_elements line (number st) 0 0%nat (sequences st)
      = Done (mask line, seqs') ∧
    store (sets st) (number st) (mask line) = Done sets' ∧
    let st' := {| number := S (number st); sets := sets'; sequences := seqs';
                  numbers_of_subsets := numbers_of_subsets st |} in
    arrays_ok st' ∧ loaded (done ++ [line]) st'.
Proof.
  intros (Hsets & Hseqs & Hrows) [Hnum Hst] Hroom Hlen Hr.
  destruct (lookup_lt_is_Some_2 (sequences st) (number st)) as [row Hrow]; [lia|].
  assert (Hrowlen : length row = 64%nat).
  { rewrite Forall_forall in Hrows. apply Hrows.
    by eapply list_elem_of_lookup_2. }
  exists (<[number st := prefixes line ++ drop (length line) row]> (sequences st)),
         (<[number st := mask line]> (sets st)).
  split; [|split].
  - rewrite (read_elements_ok line _ _ _ _ row) by (done || simpl; lia). done.
  - unfold store. rewrite decide_True by lia. done.
  - cbv zeta. split.
    + unfold arrays_ok. cbn [sets sequences]. rewrite !length_insert.
      split_and!; [done..|]. apply Forall_insert; [done|].
      unfold prefixes. rewrite !length_app, length_prefixes_from, length_drop. lia.
    + split; [cbn [number]; rewrite length_app; simpl; lia|].
      intros i es Hi. cbn [sets sequences].
      destruct (decide (i = number st)) as [->|Hne].
      * rewrite Hnum, list_lookup_middle in Hi by done.
        injection Hi as <-.
        rewrite !list_lookup_insert_eq by lia.
        split; [done|]. eauto.
      * rewrite !list_lookup_insert_ne by done.
        apply lookup_app_Some in Hi as [Hi|[Hge Hi]].
        -- by apply Hst.
        -- apply list_lookup_singleton_Some in Hi as [Hi _]. lia.
Qed.

(** The lines that fit into the arrays are stored. *)
Lemma read_lines_ok rest done st :
  arrays_ok st → loaded done st →
  (length done + length rest ≤ MAX_NUMBER)%nat →
  Forall (λ es, (length es ≤ 64)%nat ∧ Forall (λ e, 0 ≤ e < 64) es) rest →
  ∃ st', read_lines rest st = Done st' ∧
         arrays_ok st' ∧ loaded (done ++ rest) st' ∧
         numbers_of_subsets st' = numbers_of_subsets st.
Proof.
  revert done st. induction rest as [|line rest IH]; intros done st Hok Hst Hlen Hr.
  - exists st. rewrite app_nil_r. done.
  - apply Forall_cons in Hr as [[Hl Hx] Hr]. simpl in Hlen.
    destruct (read_line_ok done line st) as (seqs' & sets' & E1 & E2 & Hok' & Hst');
      [done|done|lia|done|done|].
    simpl. rewrite E1. csimpl. rewrite E2. csimpl.
    destruct (IH (done ++ [line]) _ Hok' Hst') as (st' & E & ? & ? & Hh);
      [rewrite length_app; simpl; lia|done|].
    exists st'. rewrite <- app_assoc in *. done.
Qed.

(** More lines than rows, a line longer than a row, or a number outside of
    [{0,...,63}]: the behaviour is undefined. *)
Lemma read_lines_undefined rest done st :
  arrays_ok st → loaded done st →
  (length done ≤ MAX_NUMBER)%nat →
  ¬ ((length done + length rest ≤ MAX_NUMBER)%nat ∧
     Forall (λ es, (length es ≤ 64)%nat ∧ Forall (λ e, 0 ≤ e < 64) es) rest) →
  read_lines rest st = Undefined.
Proof.
  revert done st. induction rest as [|line rest IH]; intros done st Hok Hst Hlen Hbad.
  - exfalso. apply Hbad. split; [simpl; lia|constructor].
  - pose proof Hok as (Hsets & Hseqs & Hrows). pose proof Hst as [Hnum _].
    simpl. destruct (decide (length done < MAX_NUMBER)%nat) as [Hroom|Hfull].
    + destruct (lookup_lt_is_Some_2 (sequences st) (number st)) as [row Hrow]; [lia|].
      assert (Hrowlen : length row = 64%nat).
      { rewrite Forall_forall in Hrows. apply Hrows.
        by eapply list_elem_of_lookup_2. }
      destruct (decide ((length line ≤ 64)%nat ∧ Forall (λ x, 0 ≤ x < 64) line))
        as [[Hl Hx]|Hline].
      * destruct (read_line_ok done line st)
          as (seqs' & sets' & E1 & E2 & Hok' & Hst'); [done..|].
        rewrite E1. csimpl. rewrite E2. csimpl.
        apply (IH (done ++ [line])); [done|done|rewrite length_app; simpl; lia|].
        intros [H1 H2]. apply Hbad. rewrite length_app in H1. simpl in *.
        split; [lia|]. by constructor.
      * rewrite (read_elements_undefined line _ _ _ _ row); [done|done|lia|].
        simpl. rewrite Hrowlen. tauto.
    + destruct line as [|x line].
      * simpl. unfold store. rewrite decide_False by lia. done.
      * rewrite read_elements_no_row; [done|].
        apply lookup_ge_None. lia.
Qed.

Lemma Read_input_ok lines :
  within_capacity lines →
  ∃ st, Read_input (Some lines) initial = Done (true, st) ∧
        loaded lines st ∧ numbers_of_subsets st = replicate 65 0.
Proof.
  intros [Hlen Hr]. unfold Read_input.
  destruct (read_lines_ok lines [] (Globals 0 (sets initial) (sequences initial)
              (numbers_of_subsets initial)))
    as (st & E & _ & Hst & Hh);
    [apply arrays_ok_initial|by apply loaded_nil|simpl; lia|done|].
  exists st. rewrite E. done.
Qed.

Lemma Read_input_undefined lines :
  ¬ within_capacity lines → Read_input (Some lines) initial = Undefined.
Proof.
  intros Hbad. unfold Read_input.
  rewrite (read_lines_undefined lines []);
    [done|apply arrays_ok_initial|by apply loaded_nil|simpl; lia|].
  intros [H1 H2]. apply Hbad. split; [simpl in H1; lia|done].
Qed.

End Reading.

(** ** The histogram of a run *)

Section Histogram.
Implicit Types es : list Z.
Implicit Types lines : list (list Z).
Implicit Types fuel : nat.

Lemma enough_fuel_cons es lines :
  enough_fuel (es :: lines) = (2 ^ length es + enough_fuel lines)%nat.
Proof.
  unfold enough_fuel. csimpl. by rewrite length_app, length_subsets.
Qed.

Lemma enough_fuel_each lines fuel :
  (enough_fuel lines ≤ fuel)%nat →
  Forall (λ es, (length (subsets es) ≤ fuel)%nat) lines.
Proof.
  induction lines as [|es lines IH]; intros Hfuel; [constructor|].
  rewrite enough_fuel_cons in Hfuel. constructor.
  - rewrite length_subsets. lia.
  - apply IH. lia.
Qed.


Lemma popcount_cell_range (L : list Z) :
  Forall (λ s, 0 ≤ s < Z.of_nat (length (replicate 65 0))) (popcount <$> L).
Proof.
  apply Forall_fmap, Forall_forall. intros X _. unfold compose.
  rewrite length_replicate. pose proof (popcount_range X). lia.
Qed.

Lemma zeros_in_range n : Forall (λ v, 0 ≤ v ≤ INT_MAX) (replicate n 0).
Proof. apply Forall_replicate. unfold INT_MAX. lia. Qed.

(** The computation on loaded data, from a histogram of zeros. *)
Lemma Compute_numbers_spec fuel lines st :
  loaded lines st → numbers_of_subsets st = replicate 65 0 →
  Forall wf_line lines →
  (enough_fuel lines ≤ fuel)%nat →
  Compute_numbers fuel st
  = if decide (fits (mask <$> lines))
    then Done (set_histogram st (expected (mask <$> lines)))
    else Undefined.
Proof.
  intros Hst Hzero Hwf Hfuel.
  rewrite (Compute_numbers_bump fuel lines)
    by (done || by apply enough_fuel_each).
  rewrite Hzero, bump_spec by (apply zeros_in_range || apply popcount_cell_range).
  rewrite stepped_expected by done. unfold fits.
  destruct (decide (Forall _ (expected _))) as [Hfit|Hover]; done.
Qed.

(** The whole run: the numbers to compute when they can be held by the
    cells, undefined behaviour otherwise. *)
Lemma histogram_spec fuel lines :
  (length lines ≤ MAX_NUMBER)%nat → Forall wf_line lines →
  (enough_fuel lines ≤ fuel)%nat →
  histogram fuel lines
  = if decide (fits (mask <$> lines)) then Done (expected (mask <$> lines))
    else Undefined.
Proof.
  intros Hlen Hwf Hfuel.
  destruct (Read_input_ok lines) as (st & E & Hst & Hzero);
    [by apply wf_within_capacity|].
  unfold histogram, main. rewrite E. csimpl.
  rewrite (Compute_numbers_spec fuel lines) by done.
  destruct (decide (fits _)); done.
Qed.

(** What is written is the histogram up to its first zero. *)
Lemma output_histogram fuel lines :
  output fuel lines = h ← histogram fuel lines; Done (written (take 65 h)).
Proof.
  unfold output, histogram, main.
  destruct (Read_input (Some lines) initial) as [[[] st]| |]; csimpl; [|done..].
  destruct (Compute_numbers fuel st) as [st'| |]; done.
Qed.

End Histogram.

(** ** More fuel does not change a result *)

Section Fuel.
Implicit Types fuel : nat.

Lemma enumerate_fuel_mono fuel fuel' ss seqs i set subset size h r :
  (fuel ≤ fuel')%nat →
  enumerate fuel ss seqs i set subset size h = r → r ≠ OutOfFuel →
  enumerate fuel' ss seqs i set subset size h = r.
Proof.
  revert fuel' subset size h.
  induction fuel as [|fuel IH]; intros fuel' subset size h Hle E Hr.
  - simpl in E. destruct fuel'; simpl; destruct (subset =? set); congruence.
  - destruct fuel' as [|fuel']; [lia|]. simpl in *.
    destruct (subset =? set); [done|].
    destruct (contained_in_previous ss subset i) as [c| |]; csimpl in *; [|done..].
    destruct (count_if_new c h size) as [h1| |]; csimpl in *; [|done..].
    destruct (successor seqs i subset size) as [[subset' size']| |];
      csimpl in *; [|done..].
    apply IH; [lia|done..].
Qed.

Lemma process_set_fuel_mono fuel fuel' st i r :
  (fuel ≤ fuel')%nat →
  process_set fuel st i = r → r ≠ OutOfFuel →
  process_set fuel' st i = r.
Proof.
  intros Hle E Hr. unfold process_set in *.
  destruct (load (sets st) i) as [set| |]; csimpl in *; [|done..].
  destruct (enumerate fuel _ _ _ _ _ _ _) as [[size h]| |] eqn:En;
    csimpl in *.
  - by rewrite (enumerate_fuel_mono fuel fuel' _ _ _ _ _ _ _ _ Hle En).
  - by rewrite (enumerate_fuel_mono fuel fuel' _ _ _ _ _ _ _ _ Hle En).
  - congruence.
Qed.

Lemma process_from_fuel_mono fuel fuel' st i n r :
  (fuel ≤ fuel')%nat →
  process_from fuel st i n = r → r ≠ OutOfFuel →
  process_from fuel' st i n = r.
Proof.
  intros Hle. revert st i r. induction n as [|n IH]; intros st i r E Hr; [done|].
  simpl in *.
  destruct (process_set fuel st i) as [st'| |] eqn:Ep; csimpl in *.
  - rewrite (process_set_fuel_mono fuel fuel' _ _ _ Hle Ep) by done. csimpl.
    by apply IH.
  - by rewrite (process_set_fuel_mono fuel fuel' _ _ _ Hle Ep).
  - congruence.
Qed.

Lemma histogram_fuel_mono fuel fuel' lines r :
  (fuel ≤ fuel')%nat →
  histogram fuel lines = r → r ≠ OutOfFuel → histogram fuel' lines = r.
Proof.
  intros Hle E Hr. unfold histogram, main, Compute_numbers in *.
  destruct (Read_input (Some lines) initial) as [[[] st]| |]; csimpl in *;
    [|done..].
  destruct (process_from fuel st 0 (number st)) as [st'| |] eqn:Ep; csimpl in *.
  - rewrite (process_from_fuel_mono fuel fuel' _ _ _ _ Hle Ep) by done. done.
  - by rewrite (process_from_fuel_mono fuel fuel' _ _ _ _ Hle Ep).
  - congruence.
Qed.

End Fuel.

(** ** Binomial coefficients and the subsets of one set *)

Section Binomial.
Implicit Types n k : nat.
Implicit Types X Y e : Z.
Implicit Types es : list Z.

Lemma pascal_succ n :
  pascal (S n) = zip_with Z.add (0 :: pascal n) (pascal n ++ [0]).
Proof. done. Qed.

Lemma length_pascal n : length (pascal n) = S n.
Proof.
  induction n as [|n IH]; [done|].
  rewrite pascal_succ, length_zip_with, length_app, !length_cons, IH.
  rewrite length_nil. lia.
Qed.

Lemma binomial_0 n : binomial n 0 = 1.
Proof.
  unfold binomial. induction n as [|n IH]; [done|].
  rewrite pascal_succ, lookup_zip_with. simpl.
  destruct (pascal n) as [|v p] eqn:E; [done|]. simpl in *. by rewrite IH.
Qed.

Lemma binomial_above n k : (n < k)%nat → binomial n k = 0.
Proof.
  intros Hlt. unfold binomial. rewrite lookup_ge_None_2; [done|].
  rewrite length_pascal. lia.
Qed.

(** Pascal's rule. *)
Lemma binomial_succ n k :
  binomial (S n) (S k) = binomial n k + binomial n (S k).
Proof.
  unfold binomial. rewrite pascal_succ, lookup_zip_with. simpl.
  destruct (pascal n !! k) as [v|] eqn:Ek; simpl.
  - apply lookup_lt_Some in Ek as Hk. rewrite length_pascal in Hk.
    destruct (decide (S k < S n)%nat) as [Hlt|Hge].
    + destruct (lookup_lt_is_Some_2 (pascal n) (S k)) as [w Ew];
        [rewrite length_pascal; lia|].
      rewrite lookup_app_l by (rewrite length_pascal; lia).
      by rewrite Ew.
    + assert (S k = length (pascal n)) as -> by (rewrite length_pascal; lia).
      rewrite list_lookup_middle by done.
      rewrite lookup_ge_None_2 by lia. simpl. lia.
  - apply lookup_ge_None in Ek. rewrite length_pascal in Ek.
    rewrite lookup_ge_None_2 by (rewrite length_pascal; lia). done.
Qed.

Lemma binomial_nonneg n k : 0 ≤ binomial n k.
Proof.
  revert k. induction n as [|n IH]; intros k.
  - destruct k; [done|]. by rewrite binomial_above by lia.
  - destruct k; [by rewrite binomial_0|].
    rewrite binomial_succ. pose proof (IH k). pose proof (IH (S k)). lia.
Qed.

(** [binomial n k] is [n! / (k! (n - k)!)]. *)
Lemma binomial_fact n k :
  (k ≤ n)%nat →
  binomial n k * Z.of_nat (fact k) * Z.of_nat (fact (n - k)) = Z.of_nat (fact n).
Proof.
  revert k. induction n as [|n IH]; intros k Hk.
  - replace k with 0%nat by lia. reflexivity.
  - destruct k as [|k].
    + rewrite binomial_0, Nat.sub_0_r. simpl fact at 1. lia.
    + rewrite binomial_succ. replace (S n - S k)%nat with (n - k)%nat by lia.
      assert (Hf : ∀ m, Z.of_nat (fact (S m)) = Z.of_nat (S m) * Z.of_nat (fact m)).
      { intros m. change (fact (S m)) with (S m * fact m)%nat.
        apply Nat2Z.inj_mul. }
      pose proof (IH k ltac:(lia)) as IH1.
      destruct (decide (k = n)) as [->|Hne].
      * rewrite (binomial_above n (S n)) by lia. rewrite Nat.sub_diag in *.
        rewrite Hf.
        transitivity (Z.of_nat (S n)
                      * (binomial n n * Z.of_nat (fact n) * Z.of_nat (fact 0)));
          [ring|].
        by rewrite IH1.
      * pose proof (IH (S k) ltac:(lia)) as IH2.
        replace (n - k)%nat with (S (n - S k)) in * by lia.
        rewrite !Hf in *. 
        set (a := binomial n k) in *. set (b := binomial n (S k)) in *.
        set (fk := Z.of_nat (fact k)) in *. set (fn := Z.of_nat (fact n)) in *.
        set (fr := Z.of_nat (fact (n - S k))) in *.
        replace (Z.of_nat (S n)) with (Z.of_nat (S k) + Z.of_nat (S (n - S k))) by lia.
        set (x := Z.of_nat (S k)) in *. set (y := Z.of_nat (S (n - S k))) in *.
        transitivity (x * (a * fk * (y * fr)) + y * (b * (x * fk) * fr)); [ring|].
        rewrite IH1, IH2. ring.
Qed.

Lemma length_filter_double (P Q : Z → Prop) `{∀ X, Decision (P X)}
    `{∀ X, Decision (Q X)} e (L : list Z) :
  (∀ Y, Y ∈ L → (P (Z.lor Y (bit e)) ↔ Q Y)) →
  length (filter P (L ≫= λ Y, [Y; Z.lor Y (bit e)]))
  = (length (filter P L) + length (filter Q L))%nat.
Proof.
  induction L as [|Y L IH]; intros HPQ; [done|].
  csimpl. rewrite !filter_cons.
  assert (IH' := IH (λ Y' HY', HPQ Y' (list_elem_of_further _ _ _ HY'))).
  assert (HY : P (Z.lor Y (bit e)) ↔ Q Y) by (apply HPQ; left).
  destruct (decide (P Y)), (decide (P (Z.lor Y (bit e)))), (decide (Q Y));
    simpl; rewrite ?IH'; (lia || tauto).
Qed.

(** Among the subsets of a set of [m] elements, [binomial m k] have [k]
    elements. *)
Lemma count_subsets es k :
  wf_line es →
  Z.of_nat (length (filter (λ X, popcount X = Z.of_nat k) (subsets es)))
  = binomial (length es) k.
Proof.
  intros [Hnd Hr]. revert k. induction Hnd as [|e es He Hnd IH]; intros k.
  - simpl. rewrite filter_cons, filter_nil, popcount_zero.
    destruct k as [|k].
    + by rewrite decide_True.
    + rewrite decide_False by lia. by rewrite binomial_above by lia.
  - apply Forall_cons in Hr as [He0 Hr].
    assert (Hes : Forall (λ e, 0 ≤ e) es) by (by apply wf_line_nonneg).
    rewrite subsets_cons. simpl length.
    destruct k as [|k].
    + rewrite (length_filter_double _ (λ _, False)).
      * rewrite Nat2Z.inj_add, IH, !binomial_0 by done.
        assert (E : ∀ l : list Z, filter (λ _, False) l = []).
        { induction l as [|x l IHl]; [done|].
          rewrite filter_cons. destruct (decide False); [done|apply IHl]. }
        rewrite E. simpl. lia.
      * intros Y HY. rewrite popcount_add by (done || by eapply subsets_lacks).
        pose proof (popcount_range Y). split; [lia|done].
    + rewrite (length_filter_double _ (λ Y, popcount Y = Z.of_nat k)).
      * rewrite Nat2Z.inj_add, !IH, binomial_succ by done. lia.
      * intros Y HY. rewrite popcount_add by (done || by eapply subsets_lacks).
        lia.
Qed.

Lemma count_single es k :
  wf_line es → count [mask es] k = binomial (length es) k.
Proof.
  intros Hwf. rewrite <- count_subsets by done.
  apply count_spec.
  - constructor; [by apply mask_range|constructor].
  - apply NoDup_filter, NoDup_subsets; [apply Hwf|by apply wf_line_nonneg].
  - intros X. rewrite list_elem_of_filter, elem_of_subsets by (by apply wf_line_nonneg).
    split.
    + intros (Hk & HX & Hsub). split_and!; [done| |done|].
      * eapply submask_nonneg_bound; [done..|by apply mask_range].
      * exists (mask es). split; [left|done].
    + intros ([HX _] & Hk & A & HA%list_elem_of_singleton & Hsub). by subst A.
Qed.

Lemma expected_single es :
  wf_line es → expected [mask es] = binomial (length es) <$> seq 0 65.
Proof.
  intros Hwf. unfold expected. apply list_fmap_ext. intros _ k _.
  by apply count_single.
Qed.

End Binomial.

(** ** The support of the histogram *)

Section Support.
Implicit Types X Y e : Z.
Implicit Types masks : list Z.

Lemma count_nonneg masks k : 0 ≤ count masks k.
Proof. unfold count. lia. Qed.

Lemma count_pos masks k :
  0 < count masks k ↔ ∃ X, X ∈ faces masks ∧ popcount X = Z.of_nat k.
Proof.
  unfold count. split.
  - intros H.
    destruct (filter _ (faces masks)) as [|X l] eqn:E; [simpl in H; lia|].
    assert (HX : X ∈ filter (λ X, popcount X = Z.of_nat k) (faces masks))
      by (rewrite E; left).
    apply list_elem_of_filter in HX as [? ?]. eauto.
  - intros (X & HX & Hk).
    assert (HX' : X ∈ filter (λ X, popcount X = Z.of_nat k) (faces masks))
      by (by apply list_elem_of_filter).
    destruct (filter _ (faces masks)); [by apply elem_of_nil in HX'|simpl; lia].
Qed.

(** A set with [k + 1] elements contained in a base set has a subset with
    [k] elements. *)
Lemma count_pos_pred masks k :
  Forall (λ A, 0 ≤ A < 2 ^ 64) masks →
  0 < count masks (S k) → 0 < count masks k.
Proof.
  intros Hm. rewrite !count_pos. intros (X & HX & Hk).
  apply elem_of_faces in HX as [HX0 Hc]; [|done].
  destruct (popcount_pos_has X) as (e & He & Hin); [lia|].
  exists (Z.ldiff X (bit e)). split.
  - apply elem_of_faces; [done|]. split; [apply Z.ldiff_nonneg; auto|].
    apply covered_exists in Hc as (A & HA & Hsub). apply covered_exists.
    exists A. split; [done|]. eapply submask_trans; [|done].
    apply submask_has. by intros i [? _]%has_ldiff.
  - rewrite popcount_remove by done. lia.
Qed.

Lemma expected_lookup masks k :
  (k < 65)%nat → expected masks !! k = Some (count masks k).
Proof.
  intros Hk. unfold expected. by rewrite list_lookup_fmap, lookup_seq_lt.
Qed.

Lemma length_expected masks : length (expected masks) = 65%nat.
Proof. unfold expected. by rewrite length_fmap, length_seq. Qed.

(** A zero cell is followed by a zero cell. *)
Lemma expected_prefix masks k :
  Forall (λ A, 0 ≤ A < 2 ^ 64) masks → (k < 64)%nat →
  expected masks !! k = Some 0 → expected masks !! S k = Some 0.
Proof.
  intros Hm Hk. rewrite !expected_lookup by lia. intros [= E]. f_equal.
  pose proof (count_nonneg masks (S k)).
  destruct (decide (0 < count masks (S k))) as [Hpos|]; [|lia].
  apply count_pos_pred in Hpos; [lia|done].
Qed.

(** What [Write_output] writes of a histogram with that property is all
    of its nonzero cells. *)
Lemma written_all (h : list Z) :
  (∀ k, h !! k = Some 0 → ∀ v, h !! S k = Some v → v = 0) →
  h = written h ++ replicate (length h - length (written h)) 0.
Proof.
  induction h as [|v h IH]; intros Hp; [done|].
  simpl. destruct (Z.eqb_spec v 0) as [->|Hv].
  - simpl. f_equal. clear IH.
    assert (Hall : ∀ k v, h !! k = Some v → v = 0).
    { induction k as [|k IHk]; intros v Hv.
      - by apply (Hp 0%nat).
      - destruct (lookup_lt_is_Some_2 h k) as [w Hw];
          [apply lookup_lt_Some in Hv; lia|].
        pose proof (IHk w Hw) as ->. by apply (Hp (S k)). }
    apply list_eq. intros k. destruct (h !! k) as [w|] eqn:Ek.
    + rewrite (Hall k w Ek). symmetry. apply lookup_replicate_2.
      by apply lookup_lt_Some in Ek.
    + symmetry. apply lookup_replicate_None. by apply lookup_ge_None in Ek.
  - simpl. f_equal. apply IH. intros k Hk w Hw. by apply (Hp (S k)).
Qed.

End Support.

(** ** Further properties of the loops *)

Section Claims.
Implicit Types X Y A e : Z.
Implicit Types es : list Z.
Implicit Types lines : list (list Z).
Implicit Types fuel i j : nat.

Lemma lookup_wf lines i es :
  Forall wf_line lines → lines !! i = Some es → wf_line es.
Proof. intros Hwf Hi. by apply (proj1 (Forall_lookup _ _) Hwf i es). Qed.

Lemma loaded_previous lines st i Y :
  loaded lines st → (i < length lines)%nat →
  contained_in_previous (sets st) Y i
  = Done (bool_decide (covered (mask <$> take i lines) Y)).
Proof.
  intros [_ Hst] Hi.
  rewrite <- (contained_in_previous_covered (sets st) Y (mask <$> take i lines)).
  - by rewrite length_fmap, length_take_le by lia.
  - intros k A Hk. apply list_lookup_fmap_Some in Hk as (es & -> & Hk).
    apply lookup_take_Some in Hk as [Hk _]. by apply (Hst k es).
Qed.

(** One base set of loaded data. *)
Lemma process_set_loaded lines st i es fuel :
  loaded lines st → Forall wf_line lines → lines !! i = Some es →
  (length (subsets es) ≤ fuel)%nat →
  process_set fuel st i
  = h ← tally (mask <$> take i lines) (numbers_of_subsets st) (subsets es);
    Done (set_histogram st h).
Proof.
  intros Hst Hwf Hi Hfuel.
  destruct (proj2 Hst i es Hi) as (Hset & tail & Hrow).
  apply (process_set_tally fuel st i es tail); [by eapply lookup_wf|done..| |done].
  intros Y. apply (loaded_previous lines); [done|by eapply lookup_lt_Some].
Qed.

(** Subsets that are all covered leave the histogram as it is. *)
Lemma tally_covered prev h (Xs : list Z) :
  Forall (covered prev) Xs → tally prev h Xs = Done h.
Proof.
  induction 1 as [|X Xs HX _ IH]; [done|].
  simpl. by rewrite bool_decide_eq_true_2.
Qed.

(** A proper subset has a successor. *)
Lemma proper_subset_linked es X :
  wf_line es → 0 ≤ X → submask X (mask es) → X ≠ mask es →
  ∃ X', linked es X X' ∧ X' ∈ subsets es.
Proof.
  intros Hwf HX Hsub Hne.
  destruct (chain_next _ _ _ X (chain_subsets es Hwf)) as (X' & ? & ?);
    [|done|by eauto].
  apply elem_of_subsets; [by apply wf_line_nonneg|done].
Qed.

(** [size] is the number of elements of [subset] all along the loop. *)
Lemma walk_sizes es seqs i tail fuel X visited :
  wf_line es → seqs !! i = Some (prefixes es ++ tail) →
  X ∈ subsets es →
  walk fuel seqs i (mask es) X (popcount X) = Done visited →
  Forall (λ p, p.2 = popcount p.1 ∧ p.1 ∈ subsets es) visited.
Proof.
  intros Hwf Hrow. pose proof (wf_line_nonneg es Hwf) as Hes.
  revert X visited. induction fuel as [|fuel IH]; intros X visited HX E.
  - simpl in E. destruct (Z.eqb_spec X (mask es)); [|done].
    injection E as <-. by repeat constructor.
  - simpl in E. destruct (Z.eqb_spec X (mask es)) as [|Hne].
    { injection E as <-. by repeat constructor. }
    apply elem_of_subsets in HX as HX'; [|done]. destruct HX' as [HX0 Hsub].
    destruct (proper_subset_linked es X) as (X' & Hlink & HX'); [done..|].
    rewrite (successor_linked seqs i es tail X X') in E by done. csimpl in E.
    destruct (walk fuel _ _ _ _ _) as [rest| |] eqn:Ew; csimpl in E; [|done..].
    injection E as <-. constructor; [done|]. by apply (IH X').
Qed.

(** The number of elements of a base set is the length of its line. *)
Lemma popcount_mask es : wf_line es → popcount (mask es) = Z.of_nat (length es).
Proof.
  intros [Hnd Hr]. induction Hnd as [|e es He Hnd IH]; [done|].
  apply Forall_cons in Hr as [He0 Hr].
  rewrite mask_cons, Z.lor_comm, popcount_add, IH by
    (done || rewrite has_mask by (by apply wf_line_nonneg); done).
  simpl length. lia.
Qed.

End Claims.

(** * The properties of the specification *)

Section Results.
Implicit Types X Y A e : Z.
Implicit Types es : list Z.
Implicit Types lines : list (list Z).
Implicit Types fuel i j : nat.

(** For every valid input whose numbers can be held by the cells of
    [numbers_of_subsets], the run ends with a histogram whose cell [k] is
    the number of sets with [k] elements contained in a base set: the
    length of any list without repetitions of these sets.  When a number
    exceeds the largest [int], a cell overflows and the run has no defined
    result. *)
Theorem Compute_numbers_counts lines fuel :
  valid_input lines → (enough_fuel lines ≤ fuel)%nat →
  histogram fuel lines
  = (if decide (fits (mask <$> lines)) then Done (expected (mask <$> lines))
     else Undefined)
  ∧ length (expected (mask <$> lines)) = 65%nat
  ∧ ∀ k (L : list Z),
      (k ≤ 64)%nat → NoDup L →
      (∀ X, X ∈ L ↔ 0 ≤ X < 2 ^ 64 ∧ popcount X = Z.of_nat k ∧
                     ∃ es, es ∈ lines ∧ submask X (mask es)) →
      expected (mask <$> lines) !! k = Some (Z.of_nat (length L)).
Proof.
  intros Hv Hfuel. pose proof (valid_input_wf lines Hv) as Hwf.
  split_and!.
  - apply histogram_spec; [apply Hv|done..].
  - apply length_expected.
  - intros k L Hk HL Hin. rewrite expected_lookup by lia. f_equal.
    apply count_spec; [by apply masks_range|done|].
    intros X. rewrite Hin. split.
    + intros ([? ?] & ? & es & Hes & ?). split_and!; [done..|].
      exists (mask es). split; [|done]. apply list_elem_of_fmap. eauto.
    + intros ([? ?] & ? & A & (es & -> & Hes)%list_elem_of_fmap & ?).
      split_and!; [done..|]. eauto.
Qed.

Lemma Compute_numbers_counts_scenario_A :
  valid_input scenario_A ∧ (enough_fuel scenario_A ≤ 100)%nat ∧
  histogram 100 scenario_A = Done ([1; 9; 18; 15; 6; 1] ++ replicate 59 0).
Proof.
  assert (Hv : valid_input scenario_A) by by_decision.
  assert (Hfuel : (enough_fuel scenario_A ≤ 100)%nat) by by_decision.
  refine (conj Hv (conj Hfuel _)).
  rewrite (proj1 (Compute_numbers_counts scenario_A 100 Hv Hfuel)).
  vm_compute. reflexivity.
Defined.

(** The subsets with 17 elements of a set with 34 elements. *)
Lemma count_34_17 : count (mask <$> thirty_four) 17 = 2333606220.
Proof.
  assert (Hwf : wf_line (seqZ 0 34)) by by_decision.
  change (mask <$> thirty_four) with [mask (seqZ 0 34)].
  rewrite (count_single (seqZ 0 34) 17 Hwf).
  vm_compute. reflexivity.
Qed.

Lemma not_fits_34 : ¬ fits (mask <$> thirty_four).
Proof.
  intros Hfit. unfold fits in Hfit.
  rewrite Forall_lookup in Hfit.
  pose proof (Hfit 17%nat _ (expected_lookup _ 17 ltac:(lia))) as Hle.
  rewrite count_34_17 in Hle. unfold INT_MAX in Hle. lia.
Qed.

(** C1: at the failing input.  The single base set [{0,...,33}] is a valid
    input.  It has 2333606220 subsets with 17 elements, more than the
    largest [int] 2147483647, so [numbers_of_subsets[17]] cannot hold the
    number the program is to compute: with enough fuel the run ends in the
    signed overflow of [numbers_of_subsets[17]++], and with no fuel at all
    does it end with a histogram. *)
Theorem Compute_numbers_int_overflow :
  valid_input thirty_four ∧
  count (mask <$> thirty_four) 17 = 2333606220 ∧
  INT_MAX = 2147483647 ∧
  histogram (enough_fuel thirty_four) thirty_four = Undefined ∧
  ∀ fuel, histogram fuel thirty_four = Undefined
          ∨ histogram fuel thirty_four = OutOfFuel.
Proof.
  assert (Hv : valid_input thirty_four) by by_decision.
  assert (Hlen : (length thirty_four ≤ MAX_NUMBER)%nat) by apply Hv.
  assert (Hrun : ∀ fuel, (enough_fuel thirty_four ≤ fuel)%nat →
            histogram fuel thirty_four = Undefined).
  { intros fuel Hfuel.
    rewrite (histogram_spec fuel thirty_four Hlen (valid_input_wf _ Hv) Hfuel).
    apply decide_False, not_fits_34. }
  split_and!; [exact Hv|exact count_34_17|reflexivity|by apply Hrun|].
  intros fuel. destruct (histogram fuel thirty_four) as [h| |] eqn:E.
  - exfalso.
    assert (Hmono := histogram_fuel_mono fuel (fuel + enough_fuel thirty_four)
              thirty_four (Done h) ltac:(lia) E ltac:(discriminate)).
    rewrite Hrun in Hmono by lia. discriminate.
  - by left.
  - by right.
Qed.

(** C7: a single base set with [m] elements.  The run ends with the
    binomial coefficients [binomial m k = m! / (k! (m - k)!)] in the cells
    [k = 0, ..., 64] (zero for [k > m]) when they can all be held by the
    cells, and in a signed overflow otherwise. *)
Theorem single_set_binomial es fuel :
  valid_input [es] → (enough_fuel [es] ≤ fuel)%nat →
  histogram fuel [es]
  = (if decide (Forall (λ c, c ≤ INT_MAX) (binomial (length es) <$> seq 0 65))
     then Done (binomial (length es) <$> seq 0 65)
     else Undefined)
  ∧ popcount (mask es) = Z.of_nat (length es)
  ∧ (∀ k, (k ≤ length es)%nat →
       binomial (length es) k * Z.of_nat (fact k)
       * Z.of_nat (fact (length es - k)) = Z.of_nat (fact (length es)))
  ∧ ∀ k, (length es < k)%nat → binomial (length es) k = 0.
Proof.
  intros Hv Hfuel. pose proof (valid_input_wf _ Hv) as Hwf.
  apply Forall_cons in Hwf as Hes. destruct Hes as [Hes _].
  split; [|split_and!; [by apply popcount_mask|intros k; apply binomial_fact
                       |intros k; apply binomial_above]].
  rewrite (histogram_spec fuel [es]) by (apply Hv || done).
  change (mask <$> [es]) with [mask es].
  pose proof (expected_single es Hes) as E.
  destruct (decide (fits [mask es])) as [Hf|Hf];
    destruct (decide (Forall _ (binomial _ <$> _))) as [Hb|Hb].
  - by rewrite E.
  - exfalso. apply Hb. unfold fits in Hf. by rewrite E in Hf.
  - exfalso. apply Hf. unfold fits. by rewrite E.
  - reflexivity.
Qed.

Lemma single_set_binomial_scenario_B :
  valid_input scenario_B ∧ (enough_fuel scenario_B ≤ 8)%nat ∧
  histogram 8 scenario_B = Done ([1; 3; 3; 1] ++ replicate 61 0).
Proof.
  assert (Hv : valid_input scenario_B) by by_decision.
  assert (Hfuel : (enough_fuel scenario_B ≤ 8)%nat) by by_decision.
  refine (conj Hv (conj Hfuel _)).
  unfold scenario_B in *.
  rewrite (proj1 (single_set_binomial [0; 1; 2] 8 Hv Hfuel)).
  vm_compute. reflexivity.
Defined.

(** C5, as the program has it: [Read_input] reports a failure only when
    the file cannot be opened.  It checks neither the number of lines nor
    the numbers on them: lines that fit into the arrays are stored, and
    with more than [MAX_NUMBER] lines, more than 64 numbers on a line or a
    number outside of [{0,...,63}] the behaviour is undefined. *)
Theorem Read_input_reports (file : option (list (list Z))) :
  (reports_failure (Read_input file initial) = true ↔ file = None) ∧
  match file with
  | None => Read_input file initial = Done (false, initial)
  | Some lines =>
      if decide (within_capacity lines)
      then ∃ st, Read_input file initial = Done (true, st) ∧ loaded lines st
      else Read_input file initial = Undefined
  end.
Proof.
  destruct file as [lines|]; [|done].
  destruct (decide (within_capacity lines)) as [Hc|Hc].
  - destruct (Read_input_ok lines Hc) as (st & E & Hst & _).
    rewrite E. split; [done|]. eauto.
  - rewrite (Read_input_undefined lines Hc). done.
Qed.

(** C5 does not hold as stated: the number 64 on a line, or a line more
    than [MAX_NUMBER], is not reported as a failure. *)
Lemma Read_input_no_capacity_check :
  reports_failure (Read_input (Some [[64]]) initial) = false ∧
  Read_input (Some [[64]]) initial = Undefined ∧
  reports_failure (Read_input (Some (replicate 1001 [0])) initial) = false ∧
  Read_input (Some (replicate 1001 [0])) initial = Undefined.
Proof. split_and!; vm_compute; reflexivity. Qed.

End Results.

Section Traversal.
Implicit Types X Y A e : Z.
Implicit Types es : list Z.
Implicit Types lines : list (list Z).
Implicit Types fuel i j : nat.

(** C2: for each base set [A_i] of a valid input, the successor stepping
    that starts from the empty subset runs through the list [subsets es]:
    every subset of [A_i] exactly once, [2 ^ |A_i|] subsets in all, with
    [A_i] itself last, where the loop ends; the histogram is stepped for
    each of them, [A_i] included (by the check after the loop). *)
Theorem successor_visits_every_subset lines i es fuel :
  valid_input lines → lines !! i = Some es →
  (2 ^ length es ≤ fuel)%nat →
  ∃ st,
    Read_input (Some lines) initial = Done (true, st) ∧
    sets st !! i = Some (mask es) ∧
    popcount (mask es) = Z.of_nat (length es) ∧
    walk fuel (sequences st) i (mask es) 0 0
      = Done ((λ Y, (Y, popcount Y)) <$> subsets es) ∧
    NoDup (subsets es) ∧
    length (subsets es) = (2 ^ length es)%nat ∧
    (∀ X, X ∈ subsets es ↔ 0 ≤ X ∧ submask X (mask es)) ∧
    last (subsets es) = Some (mask es) ∧
    ∀ h, process_set fuel (set_histogram st h) i
         = h' ← tally (mask <$> take i lines) h (subsets es);
           Done (set_histogram st h').
Proof.
  intros Hv Hi Hfuel. pose proof (valid_input_wf lines Hv) as Hwf.
  pose proof (lookup_wf lines i es Hwf Hi) as Hes.
  pose proof (wf_line_nonneg es Hes) as Hnn.
  destruct (Read_input_ok lines (valid_within_capacity lines Hv))
    as (st & E & Hst & _).
  destruct (proj2 Hst i es Hi) as (Hset & tail & Hrow).
  pose proof (chain_subsets es Hes) as Hchain.
  pose proof (length_subsets es) as Hlen.
  exists st.
  split_and!; [done|done|by apply popcount_mask| |apply NoDup_subsets; [apply Hes|done]
    |done|intros X; by apply elem_of_subsets|by eapply chain_last_eq|].
  - destruct (subsets_head es) as [L HL]. rewrite HL in *.
    rewrite <- popcount_zero at 2.
    apply (walk_chain es _ _ tail); [done..|]. simpl in Hlen. lia.
  - intros h.
    apply (process_set_loaded lines (set_histogram st h) i es fuel);
      [done..|lia].
Qed.

Lemma successor_visits_every_subset_example :
  valid_input [[1; 5; 2; 0]] ∧
  ∃ st, Read_input (Some [[1; 5; 2; 0]]) initial = Done (true, st) ∧
        walk 16 (sequences st) 0 (mask [1; 5; 2; 0]) 0 0
        = Done ((λ Y, (Y, popcount Y)) <$>
                  [0; 2; 32; 34; 4; 6; 36; 38; 1; 3; 33; 35; 5; 7; 37; 39]).
Proof.
  assert (Hv : valid_input [[1; 5; 2; 0]]) by by_decision.
  split; [exact Hv|].
  destruct (successor_visits_every_subset [[1; 5; 2; 0]] 0 [1; 5; 2; 0] 16 Hv
              eq_refl ltac:(simpl; lia))
    as (st & E & _ & _ & Hwalk & _).
  exists st. split; [exact E|]. exact Hwalk.
Defined.

(** The search loop stops at the first cell that is not contained in
    [subset]. *)
Lemma search_first rest X index t :
  search rest X index = Done t →
  (index ≤ t)%nat ∧
  (∃ s, rest !! (t - index)%nat = Some s ∧ ¬ submask s X) ∧
  ∀ k s, (index + k < t)%nat → rest !! k = Some s → submask s X.
Proof.
  revert index. induction rest as [|s0 rest IH]; intros index E; [done|].
  simpl in E. destruct (Z.eqb_spec (Z.lor X s0) X) as [Heq|Hne].
  - destruct (IH _ E) as (Hle & (s & Hs & Hn) & Hbefore).
    split_and!; [lia| |].
    + exists s. split; [|done].
      replace (t - index)%nat with (S (t - S index)) by lia. done.
    + intros [|k] s' Hk Hs'.
      * injection Hs' as <-. by apply lor_absorb.
      * apply (Hbefore k); [lia|done].
  - injection E as <-. split_and!; [lia| |intros; lia].
    exists s0. rewrite Nat.sub_diag. split; [done|]. by rewrite <- lor_absorb.
Qed.

(** C3: when [subset] is a proper subset of the base set [A_i] of a valid
    input, the search loop ends at an index [t] below the number of
    elements of [A_i], which is at most 64: it reads no cell of the row
    behind those written for the base set.  [t] is the first index whose
    cell is not contained in [subset]. *)
Theorem search_stays_in_row lines i es X :
  valid_input lines → lines !! i = Some es →
  0 ≤ X → submask X (mask es) → X ≠ mask es →
  ∃ st row t,
    Read_input (Some lines) initial = Done (true, st) ∧
    sequences st !! i = Some row ∧
    search row X 0 = Done t ∧
    (t < length es ≤ 64)%nat ∧
    popcount (mask es) = Z.of_nat (length es) ∧
    (∃ s, prefixes es !! t = Some s ∧ row !! t = Some s ∧ ¬ submask s X) ∧
    ∀ t' s', (t' < t)%nat → row !! t' = Some s' → submask s' X.
Proof.
  intros Hv Hi HX Hsub Hne. pose proof (valid_input_wf lines Hv) as Hwf.
  pose proof (lookup_wf lines i es Hwf Hi) as Hes.
  pose proof (wf_line_nonneg es Hes) as Hnn.
  destruct (Read_input_ok lines (valid_within_capacity lines Hv))
    as (st & E & Hst & _).
  destruct (proj2 Hst i es Hi) as (Hset & tail & Hrow).
  destruct (proper_subset_linked es X Hes HX Hsub Hne)
    as (X' & (pre & e & post & -> & Hpre & He & _) & _).
  exists st, (prefixes (pre ++ e :: post) ++ tail), (length pre).
  assert (Hlook : prefixes (pre ++ e :: post) !! length pre
                  = Some (mask (pre ++ [e])))
    by apply prefixes_from_lookup.
  split_and!; [done|done| | | |by apply popcount_mask| |].
  - unfold prefixes. rewrite search_found by (done || apply submask_zero).
    done.
  - rewrite length_app. simpl. lia.
  - by apply wf_line_length.
  - exists (mask (pre ++ [e])). split_and!; [done| |].
    + rewrite lookup_app_l; [done|]. by eapply lookup_lt_Some.
    + rewrite submask_has. intros H. apply He, H.
      apply has_mask.
      * apply Forall_app in Hnn as [? [? _]%Forall_cons].
        apply Forall_app. auto.
      * rewrite elem_of_app, list_elem_of_singleton. auto.
  - intros t' s' Ht' Hs'.
    assert (Hsearch : search (prefixes (pre ++ e :: post) ++ tail) X 0
                      = Done (length pre)).
    { unfold prefixes. rewrite search_found by (done || apply submask_zero).
      done. }
    apply search_first in Hsearch as (_ & _ & Hbefore).
    by apply (Hbefore t' s').
Qed.

Lemma search_stays_in_row_example :
  valid_input [[1; 5; 2; 0]] ∧ 0 ≤ 34 ∧ submask 34 (mask [1; 5; 2; 0]) ∧
  34 ≠ mask [1; 5; 2; 0] ∧
  ∃ st row t,
    Read_input (Some [[1; 5; 2; 0]]) initial = Done (true, st) ∧
    sequences st !! 0%nat = Some row ∧
    search row 34 0 = Done t ∧ (t < 4)%nat.
Proof.
  assert (Hv : valid_input [[1; 5; 2; 0]]) by by_decision.
  assert (H0 : 0 ≤ 34) by lia.
  assert (Hs : submask 34 (mask [1; 5; 2; 0])) by reflexivity.
  assert (Hn : 34 ≠ mask [1; 5; 2; 0]) by (vm_compute; discriminate).
  refine (conj Hv (conj H0 (conj Hs (conj Hn _)))).
  destruct (search_stays_in_row [[1; 5; 2; 0]] 0 [1; 5; 2; 0] 34 Hv eq_refl
              H0 Hs Hn)
    as (st & row & t & E & Hrow & Hsearch & [Ht _] & _).
  exists st, row, t. split_and!; [exact E|exact Hrow|exact Hsearch|exact Ht].
Defined.

(** C4: on the data of a valid input, [size] is the number of elements of
    [subset] all along the loop.  It holds at the start ([0] for the empty
    set); the successor of a proper subset of [A_i] is again a subset of
    [A_i], and the update [size -= index - 1] yields its number of
    elements; so it holds for every value that [subset] and [size] take
    at the test of the loop, where the cell [size] is stepped. *)
Theorem size_is_popcount lines i es :
  valid_input lines → lines !! i = Some es →
  ∃ st,
    Read_input (Some lines) initial = Done (true, st) ∧
    popcount 0 = 0 ∧
    (∀ X, 0 ≤ X → submask X (mask es) → X ≠ mask es →
       ∃ X', successor (sequences st) i X (popcount X) = Done (X', popcount X')
             ∧ 0 ≤ X' ∧ submask X' (mask es)) ∧
    (∀ fuel visited,
       walk fuel (sequences st) i (mask es) 0 0 = Done visited →
       Forall (λ p, p.2 = popcount p.1) visited) ∧
    (∀ fuel h, (2 ^ length es ≤ fuel)%nat →
       process_set fuel (set_histogram st h) i
       = h' ← tally (mask <$> take i lines) h (subsets es);
         Done (set_histogram st h')).
Proof.
  intros Hv Hi. pose proof (valid_input_wf lines Hv) as Hwf.
  pose proof (lookup_wf lines i es Hwf Hi) as Hes.
  pose proof (wf_line_nonneg es Hes) as Hnn.
  destruct (Read_input_ok lines (valid_within_capacity lines Hv))
    as (st & E & Hst & _).
  destruct (proj2 Hst i es Hi) as (Hset & tail & Hrow).
  exists st. split_and!; [done|apply popcount_zero| | |].
  - intros X HX Hsub Hne.
    destruct (proper_subset_linked es X Hes HX Hsub Hne) as (X' & Hlink & HX').
    exists X'. split; [by eapply successor_linked|].
    by apply elem_of_subsets in HX'.
  - intros fuel visited Hwalk.
    rewrite <- popcount_zero in Hwalk at 2.
    apply (walk_sizes es _ _ tail) in Hwalk; [|done..|].
    + eapply Forall_impl; [exact Hwalk|]. by intros p [? _].
    + destruct (subsets_head es) as [L ->]. left.
  - intros fuel h Hfuel.
    apply (process_set_loaded lines (set_histogram st h) i es fuel);
      [done..|]. rewrite length_subsets. lia.
Qed.

Lemma size_is_popcount_example :
  valid_input [[1; 5; 2; 0]] ∧
  ∃ st X', Read_input (Some [[1; 5; 2; 0]]) initial = Done (true, st) ∧
           successor (sequences st) 0 35 (popcount 35) = Done (X', popcount X').
Proof.
  assert (Hv : valid_input [[1; 5; 2; 0]]) by by_decision.
  split; [exact Hv|].
  destruct (size_is_popcount [[1; 5; 2; 0]] 0 [1; 5; 2; 0] Hv eq_refl)
    as (st & E & _ & Hsucc & _).
  destruct (Hsucc 35 ltac:(lia) eq_refl ltac:(vm_compute; discriminate))
    as (X' & HX' & _).
  exists st, X'. split; [exact E|exact HX'].
Defined.

End Traversal.

Section Deduplication.
Implicit Types X Y A e : Z.
Implicit Types es : list Z.
Implicit Types lines : list (list Z).
Implicit Types fuel i j : nat.

(** C6: a base set of a valid input that is equal to, or a subset of, an
    earlier base set steps no cell of the histogram: the run through its
    subsets leaves [numbers_of_subsets] as it was. *)
Theorem covered_set_adds_nothing lines i j es es' fuel h :
  valid_input lines →
  lines !! i = Some es → lines !! j = Some es' → (j < i)%nat →
  submask (mask es) (mask es') →
  (2 ^ length es ≤ fuel)%nat →
  ∃ st,
    Read_input (Some lines) initial = Done (true, st) ∧
    process_set fuel (set_histogram st h) i = Done (set_histogram st h).
Proof.
  intros Hv Hi Hj Hlt Hsub Hfuel. pose proof (valid_input_wf lines Hv) as Hwf.
  pose proof (lookup_wf lines i es Hwf Hi) as Hes.
  destruct (Read_input_ok lines (valid_within_capacity lines Hv))
    as (st & E & Hst & _).
  exists st. split; [done|].
  rewrite (process_set_loaded lines (set_histogram st h) i es fuel);
    [|done..|rewrite length_subsets; lia].
  cbn [numbers_of_subsets set_histogram].
  rewrite tally_covered; [done|].
  apply Forall_forall. intros X [_ HX]%elem_of_subsets;
    [|by apply wf_line_nonneg].
  apply covered_exists. exists (mask es'). split.
  - apply list_elem_of_fmap. exists es'. split; [done|].
    apply (list_elem_of_lookup_2 _ j). by apply lookup_take_Some.
  - by eapply submask_trans.
Qed.

Lemma covered_set_adds_nothing_scenario_C :
  valid_input scenario_C ∧
  histogram 8 scenario_C = Done ([1; 2; 1] ++ replicate 62 0) ∧
  histogram 8 [[0; 1]] = Done ([1; 2; 1] ++ replicate 62 0) ∧
  ∃ st, Read_input (Some scenario_C) initial = Done (true, st) ∧
        process_set 4 (set_histogram st [1; 2; 1]) 1
        = Done (set_histogram st [1; 2; 1]).
Proof.
  assert (Hv : valid_input scenario_C) by by_decision.
  split_and!; [exact Hv|vm_compute; reflexivity|vm_compute; reflexivity|].
  exact (covered_set_adds_nothing scenario_C 1 0 [0; 1] [0; 1] 4 [1; 2; 1]
           Hv eq_refl eq_refl ltac:(lia) eq_refl ltac:(simpl; lia)).
Defined.







(** No run on a valid input whose numbers cannot all be held by the cells
    ends with a histogram. *)
Lemma overflow_no_histogram lines :
  valid_input lines → ¬ fits (mask <$> lines) →
  ∀ fuel,
    ((enough_fuel lines ≤ fuel)%nat → histogram fuel lines = Undefined) ∧
    (histogram fuel lines = Undefined ∨ histogram fuel lines = OutOfFuel).
Proof.
  intros Hv Hf.
  assert (Hrun : ∀ fuel, (enough_fuel lines ≤ fuel)%nat →
            histogram fuel lines = Undefined).
  { intros fuel Hfuel.
    rewrite (histogram_spec fuel lines (proj1 Hv) (valid_input_wf _ Hv) Hfuel).
    by apply decide_False. }
  intros fuel. split; [apply Hrun|].
  destruct (histogram fuel lines) as [h| |] eqn:E.
  - exfalso.
    assert (Hmono := histogram_fuel_mono fuel (fuel + enough_fuel lines)
              lines (Done h) ltac:(lia) E ltac:(discriminate)).
    rewrite Hrun in Hmono by lia. discriminate.
  - by left.
  - by right.
Qed.



(** C9: on a valid input with at least one base set, a zero cell of the
    final histogram is never followed by a nonzero cell, and what
    [Write_output] writes, the cells up to the first zero, are all nonzero
    cells, whenever the numbers to compute can all be held by the cells;
    otherwise the run ends in a signed overflow, with no histogram and no
    output.  The single base set [{0,...,33}] is a valid input of the
    latter kind: no run on it ends with a histogram or an output. *)
Theorem histogram_support_is_prefix :
  (∀ lines fuel,
     valid_input lines → lines ≠ [] →
     (enough_fuel lines ≤ fuel)%nat →
     if decide (fits (mask <$> lines))
     then ∃ h,
       histogram fuel lines = Done h ∧
       length h = 65%nat ∧
       h !! 0%nat = Some 1 ∧
       (∀ k, (k < 64)%nat → h !! k = Some 0 → h !! S k = Some 0) ∧
       output fuel lines = Done (written (take 65 h)) ∧
       h = written (take 65 h) ++ replicate (65 - length (written (take 65 h))) 0
     else histogram fuel lines = Undefined ∧ output fuel lines = Undefined) ∧
  valid_input thirty_four ∧
  thirty_four ≠ [] ∧
  count (mask <$> thirty_four) 17 = 2333606220 ∧
  INT_MAX = 2147483647 ∧
  ∀ fuel,
    ((enough_fuel thirty_four ≤ fuel)%nat →
     histogram fuel thirty_four = Undefined ∧
     output fuel thirty_four = Undefined) ∧
    (histogram fuel thirty_four = Undefined
     ∨ histogram fuel thirty_four = OutOfFuel) ∧
    (output fuel thirty_four = Undefined ∨ output fuel thirty_four = OutOfFuel).
Proof.
  assert (Hv34 : valid_input thirty_four) by by_decision.
  split_and!; [|exact Hv34|discriminate|exact count_34_17|reflexivity|].
  - intros lines fuel Hv Hne Hfuel. pose proof (valid_input_wf lines Hv) as Hwf.
    pose proof (masks_range lines Hwf) as Hm.
    rewrite output_histogram.
    rewrite (histogram_spec fuel lines) by (apply Hv || done).
    destruct (decide (fits (mask <$> lines))) as [Hf|Hf]; [|done].
    exists (expected (mask <$> lines)).
    assert (Hpre : ∀ k, (k < 64)%nat → expected (mask <$> lines) !! k = Some 0 →
              expected (mask <$> lines) !! S k = Some 0)
      by (intros k Hk; by apply expected_prefix).
    split_and!; [done|apply length_expected| |done|done|].
    + rewrite expected_lookup by lia. f_equal.
      destruct lines as [|es lines]; [done|].
      apply (count_spec _ 0 [0]).
      * done.
      * apply NoDup_singleton.
      * intros X. rewrite list_elem_of_singleton. split.
        -- intros ->. split_and!; [lia|lia|done|].
           exists (mask es). split; [left|apply submask_zero].
        -- intros ([HX HX'] & Hk & _).
           destruct (decide (X = 0)) as [|HX0]; [done|]. exfalso.
           assert (Hl : has X (Z.log2 X)) by (apply Z.bit_log2; lia).
           pose proof (has_bound X _ (conj HX HX') Hl) as Hb.
           pose proof (popcount_remove X (Z.log2 X) Hb Hl) as Hr.
           pose proof (popcount_range (Z.ldiff X (bit (Z.log2 X)))).
           simpl in Hk. lia.
    + rewrite take_ge by (rewrite length_expected; lia).
      assert (Hw := written_all (expected (mask <$> lines))).
      rewrite length_expected in Hw. apply Hw. intros k Hk v Hv'.
      destruct (decide (k < 64)%nat) as [Hlt|Hge].
      * rewrite (Hpre k Hlt Hk) in Hv'. by injection Hv' as <-.
      * apply lookup_lt_Some in Hv'. rewrite length_expected in Hv'. lia.
  - intros fuel.
    destruct (overflow_no_histogram _ Hv34 not_fits_34 fuel) as [H1 H2].
    rewrite output_histogram. split_and!; [|done|].
    + intros Hfuel. by rewrite H1.
    + destruct H2 as [->| ->]; [by left|by right].
Qed.

Lemma histogram_support_is_prefix_scenario_A :
  valid_input scenario_A ∧ scenario_A ≠ [] ∧
  (enough_fuel scenario_A ≤ 100)%nat ∧
  ∃ h, histogram 100 scenario_A = Done h ∧
       output 100 scenario_A = Done [1; 9; 18; 15; 6; 1] ∧
       h = [1; 9; 18; 15; 6; 1] ++ replicate 59 0.
Proof.
  assert (Hv : valid_input scenario_A) by by_decision.
  assert (Hne : scenario_A ≠ []) by discriminate.
  assert (Hfuel : (enough_fuel scenario_A ≤ 100)%nat) by by_decision.
  refine (conj Hv (conj Hne (conj Hfuel _))).
  pose proof (proj1 histogram_support_is_prefix scenario_A 100%nat Hv Hne Hfuel)
    as H.
  rewrite decide_True in H by by_decision.
  destruct H as (h & E & _ & _ & _ & Hout & Hall).
  exists h. split; [exact E|].
  vm_compute in E. injection E as <-. split; vm_compute; reflexivity.
Defined.

(** C10: a line without elements gives the bit mask 0.  The loop over the
    subsets of such a base set is not entered, whatever the fuel; the base
    set steps the cell 0 once when it is the first base set, and no cell
    when a base set precedes it.  The whole run on lines that may be
    empty ends. *)
Theorem empty_set_terminates lines i :
  (length lines ≤ MAX_NUMBER)%nat → Forall wf_line lines →
  lines !! i = Some [] →
  ∃ st,
    Read_input (Some lines) initial = Done (true, st) ∧
    sets st !! i = Some 0 ∧
    (∀ fuel h,
       enumerate fuel (sets st) (sequences st) i 0 0 0 h = Done (0, h)) ∧
    (∀ fuel h,
       process_set fuel (set_histogram st h) i
       = if decide (i = 0%nat)
         then h' ← increment h 0; Done (set_histogram st h')
         else Done (set_histogram st h)) ∧
    (∀ fuel, (enough_fuel lines ≤ fuel)%nat →
       histogram fuel lines
       = if decide (fits (mask <$> lines))
         then Done (expected (mask <$> lines)) else Undefined).
Proof.
  intros Hlen Hwf Hi.
  destruct (Read_input_ok lines (wf_within_capacity lines Hlen Hwf))
    as (st & E & Hst & _).
  destruct (proj2 Hst i [] Hi) as (Hset & _). rewrite mask_nil in Hset.
  assert (Henum : ∀ fuel h,
            enumerate fuel (sets st) (sequences st) i 0 0 0 h = Done (0, h)).
  { intros fuel h. destruct fuel; reflexivity. }
  exists st. split_and!; [done|done|done| |].
  - intros fuel h. unfold process_set, load. cbn [sets sequences set_histogram].
    rewrite Hset. csimpl. rewrite Henum. csimpl.
    rewrite (loaded_previous lines st i 0 Hst) by (by eapply lookup_lt_Some).
    csimpl. destruct i as [|i].
    + rewrite bool_decide_eq_false_2 by apply covered_nil. done.
    + rewrite bool_decide_eq_true_2; [done|].
      destruct lines as [|es0 lines]; [done|].
      apply covered_exists. exists (mask es0). split; [left|apply submask_zero].
  - intros fuel Hfuel. by apply histogram_spec.
Qed.

Lemma empty_set_terminates_example :
  (length [[0; 1]; []] ≤ MAX_NUMBER)%nat ∧ Forall wf_line [[0; 1]; []] ∧
  histogram 0 [[]] = Done ([1] ++ replicate 64 0) ∧
  histogram 5 [[0; 1]; []] = Done ([1; 2; 1] ++ replicate 62 0) ∧
  ∃ st, Read_input (Some [[0; 1]; []]) initial = Done (true, st) ∧
        sets st !! 1%nat = Some 0 ∧
        process_set 0 (set_histogram st [1; 2; 1]) 1
        = Done (set_histogram st [1; 2; 1]).
Proof.
  assert (Hlen : (length [[0; 1]; []] ≤ MAX_NUMBER)%nat) by by_decision.
  assert (Hwf : Forall wf_line [[0; 1]; []]) by by_decision.
  split_and!; [exact Hlen|exact Hwf|vm_compute; reflexivity
              |vm_compute; reflexivity|].
  destruct (empty_set_terminates [[0; 1]; []] 1 Hlen Hwf eq_refl)
    as (st & E & Hset & _ & Hproc & _).
  exists st. split_and!; [exact E|exact Hset|exact (Hproc 0%nat [1; 2; 1])].
Defined.

End Deduplication.

(** * The input as text *)

Section Text.
Variable to_int : list ascii → option Z.
Implicit Types s line p piece : list ascii.
Implicit Types ps : list (list ascii).
Implicit Types fuel : nat.

Lemma split_commas_not_nil s : split_commas s ≠ [].
Proof.
  destruct s as [|c s]; [done|]. simpl.
  destruct (Ascii.eqb c comma); [done|]. by destruct (split_commas s).
Qed.

Lemma split_commas_no_comma s : comma ∉ s → split_commas s = [s].
Proof.
  induction s as [|c s IH]; intros Hs; [done|].
  apply not_elem_of_cons in Hs as [Hc Hs]. simpl.
  rewrite (proj2 (Ascii.eqb_neq c comma)) by congruence.
  by rewrite IH.
Qed.

Lemma split_commas_piece p s :
  comma ∉ p → split_commas (p ++ (comma :: s)) = p :: split_commas s.
Proof.
  induction p as [|c p IH]; intros Hp.
  - done.
  - apply not_elem_of_cons in Hp as [Hc Hp]. simpl.
    rewrite (proj2 (Ascii.eqb_neq c comma)) by congruence.
    by rewrite IH.
Qed.

Lemma find_comma_spec s :
  match find_comma s with
  | None => comma ∉ s
  | Some pos => ∃ p s', s = p ++ (comma :: s') ∧ (comma ∉ p) ∧ pos = length p
  end.
Proof.
  induction s as [|c s IH]; simpl; [apply not_elem_of_nil|].
  destruct (Ascii.eqb_spec c comma) as [->|Hc].
  - exists [], s. split_and!; [done|apply not_elem_of_nil|done].
  - destruct (find_comma s) as [pos|]; simpl.
    + destruct IH as (p & s' & -> & Hp & ->). exists (c :: p), s'.
      split_and!; [done| |done]. apply not_elem_of_cons. split; [congruence|done].
    + apply not_elem_of_cons. split; [congruence|done].
Qed.

(** The two cases of [First_element]: no comma, and a first comma. *)
Lemma First_element_cases line :
  ((comma ∉ line) ∧
   First_element to_int line = x ← or_undefined (to_int line); Done (x, []))
  ∨ ∃ p s', line = p ++ (comma :: s') ∧ (comma ∉ p) ∧
            First_element to_int line
            = x ← or_undefined (to_int p); Done (x, s').
Proof.
  unfold First_element. pose proof (find_comma_spec line) as H.
  destruct (find_comma line) as [pos|]; [right|by left].
  destruct H as (p & s' & -> & Hp & ->). exists p, s'. split_and!; [done..|].
  cbv zeta. rewrite take_app_length. by rewrite drop_app_add.
Qed.

Lemma or_undefined_mapM_cons p ps :
  or_undefined (mapM to_int (p :: ps))
  = x ← or_undefined (to_int p); xs ← or_undefined (mapM to_int ps);
    Done (x :: xs).
Proof. csimpl. destruct (to_int p); [|done]. csimpl. by destruct (mapM _ _). Qed.

Lemma tokens_nil : tokens [] = [].
Proof. done. Qed.

Lemma tokens_no_comma c s : comma ∉ c :: s → tokens (c :: s) = [c :: s].
Proof. intros H. unfold tokens. by rewrite split_commas_no_comma. Qed.

Lemma tokens_piece p s : comma ∉ p → tokens (p ++ (comma :: s)) = p :: tokens s.
Proof.
  intros Hp. unfold tokens. rewrite split_commas_piece by done.
  pose proof (split_commas_not_nil s) as Hne.
  destruct (split_commas s) as [|q qs] eqn:E; [done|].
  rewrite last_cons. destruct (last (q :: qs)) as [[|]|] eqn:El; try done.
  by apply last_None in El.
Qed.

(** X2: [First_element] on a string that is not empty takes the piece
    before the first comma, or the whole string when it has no comma, and
    leaves what follows that comma, or the empty string: a string strictly
    shorter than before.  It returns the value that [x_stream >> x] writes
    for the piece; when nothing is written, [x] has no value and the
    behaviour is undefined. *)
Theorem First_element_takes_first_piece c s :
  ∃ piece rest,
    First_element to_int (c :: s)
    = match to_int piece with
      | Some x => Done (x, rest)
      | None => Undefined
      end ∧
    (comma ∉ piece) ∧
    (length rest < length (c :: s))%nat ∧
    ((c :: s = piece ∧ rest = []) ∨ c :: s = piece ++ (comma :: rest)).
Proof.
  destruct (First_element_cases (c :: s)) as [[Hc E]|(p & s' & Hs & Hp & E)].
  - exists (c :: s), []. rewrite E.
    split_and!; [by destruct (to_int _)|done|simpl; lia|by left].
  - exists p, s'. rewrite E.
    split_and!; [by destruct (to_int _)|done| |by right].
    rewrite Hs, length_app. simpl. lia.
Qed.

Lemma line_elements_tokens fuel line :
  (length line ≤ fuel)%nat →
  line_elements to_int fuel line = or_undefined (mapM to_int (tokens line)).
Proof.
  revert line. induction fuel as [|fuel IH]; intros line Hfuel.
  - destruct line; [done|simpl in Hfuel; lia].
  - destruct line as [|c s]; [done|]. cbn [line_elements].
    destruct (First_element_cases (c :: s)) as [[Hc E]|(p & s' & Hs & Hp & E)].
    + rewrite E, tokens_no_comma by done.
      rewrite or_undefined_mapM_cons.
      destruct (to_int (c :: s)); [|done]. csimpl. by destruct fuel.
    + rewrite E, Hs, tokens_piece by done.
      rewrite or_undefined_mapM_cons.
      destruct (to_int p); [|done]. csimpl.
      rewrite IH; [done|]. rewrite Hs, length_app in Hfuel. simpl in Hfuel. lia.
Qed.

Lemma join_split_commas line : join_commas (split_commas line) = line.
Proof.
  induction line as [|c s IH]; [done|]. simpl.
  pose proof (split_commas_not_nil s) as Hne.
  destruct (Ascii.eqb_spec c comma) as [->|Hc].
  - destruct (split_commas s) as [|q qs]; [done|].
    change (join_commas ([] :: q :: qs)) with (comma :: join_commas (q :: qs)).
    by rewrite IH.
  - destruct (split_commas s) as [|q qs]; [done|].
    destruct qs as [|q' qs].
    + simpl in *. by rewrite IH.
    + change (join_commas ((c :: q) :: q' :: qs))
        with (c :: (q ++ comma :: join_commas (q' :: qs))).
      f_equal. exact IH.
Qed.

Lemma split_join_commas (ps : list (list ascii)) :
  Forall (λ p, comma ∉ p) ps → ps ≠ [] → split_commas (join_commas ps) = ps.
Proof.
  intros Hps Hne. induction Hps as [|p ps Hp Hps IH]; [done|].
  destruct ps as [|q qs]; [by apply split_commas_no_comma|].
  change (join_commas (p :: q :: qs))
    with (p ++ (comma :: join_commas (q :: qs))).
  rewrite split_commas_piece by done. by rewrite IH.
Qed.

(** X3: the loop [while (line != "")] ends on every line, after at most as
    many calls of [First_element] as the line has characters.  The pieces
    that are converted are those between the commas, where an empty piece
    behind the last comma, like an empty line, gives no call; the values
    returned are those written for the pieces, in order, and the behaviour
    is undefined when for one of the pieces nothing is written. *)
Theorem line_elements_are_tokens fuel line :
  (length line ≤ fuel)%nat →
  line_elements to_int fuel line
  = match mapM to_int (tokens line) with
    | Some xs => Done xs
    | None => Undefined
    end ∧
  (∀ xs, mapM to_int (tokens line) = Some xs ↔
         Forall2 (λ p x, to_int p = Some x) (tokens line) xs) ∧
  (mapM to_int (tokens line) = None ↔
   ∃ p, p ∈ tokens line ∧ to_int p = None) ∧
  tokens line = (match last (split_commas line) with
                 | Some [] => removelast (split_commas line)
                 | _ => split_commas line
                 end) ∧
  join_commas (split_commas line) = line.
Proof.
  intros Hfuel. split_and!.
  - by apply line_elements_tokens.
  - intros xs. apply mapM_Some.
  - rewrite mapM_None. split.
    + intros (p & Hp & E)%Exists_exists. eauto.
    + intros (p & Hp & E). apply Exists_exists. eauto.
  - done.
  - apply join_split_commas.
Qed.

(** X4: on the line made of pieces without commas, joined by commas, the
    last piece not empty, the loop [while (line != "")] of [Read_input]
    calls [First_element] once for each piece and gets the values written
    for the pieces, in order; the behaviour is undefined when for one of
    the pieces, an empty piece between two commas for one, nothing is
    written. *)
Theorem line_elements_of_joined_pieces fuel (ps : list (list ascii)) q :
  Forall (λ p, comma ∉ p) ps → last ps = Some q → q ≠ [] →
  (length (join_commas ps) ≤ fuel)%nat →
  line_elements to_int fuel (join_commas ps)
  = match mapM to_int ps with
    | Some xs => Done xs
    | None => Undefined
    end ∧
  split_commas (join_commas ps) = ps.
Proof.
  intros Hps Hq Hq' Hfuel.
  assert (E : split_commas (join_commas ps) = ps).
  { apply split_join_commas; [done|]. by intros ->. }
  split; [|done]. rewrite line_elements_tokens by done.
  unfold tokens. rewrite E, Hq. by destruct q.
Qed.

End Text.

(** ** The stream library on a piece *)

Lemma skip_spaces_nil s : skip_spaces s = [] ↔ Forall (λ c, is_space c = true) s.
Proof.
  induction s as [|c s IH]; simpl.
  - split; [constructor|done].
  - destruct (is_space c) eqn:E.
    + rewrite IH. split; [by constructor|by intros [_ ?]%Forall_cons].
    + split; [done|]. intros [Hc _]%Forall_cons. congruence.
Qed.

(** Nothing is written exactly for the pieces of white space only, the
    empty piece among them. *)
Lemma extract_None s : extract s = None ↔ Forall (λ c, is_space c = true) s.
Proof.
  rewrite <- skip_spaces_nil. unfold extract.
  destruct (skip_spaces s) as [|c s']; [done|].
  split; [|done].
  destruct (Ascii.eqb c "-"%char); [by destruct (starts_with_digit _)|].
  destruct (Ascii.eqb c "+"%char); by destruct (starts_with_digit _).
Qed.

(** [First_element] with the stream library as above: on [12,5], on a
    single number, on a string that starts with a comma and on a blank. *)
Lemma First_element_examples :
  First_element extract (text "12,5"%string) = Done (12, text "5"%string) ∧
  First_element extract (text "7"%string) = Done (7, []) ∧
  First_element extract (text ",5"%string) = Undefined ∧
  First_element extract (text " "%string) = Undefined.
Proof. split_and!; reflexivity. Qed.

Lemma line_elements_are_tokens_example :
  (length (text "16,7,20,"%string) ≤ 8)%nat ∧
  line_elements extract 8 (text "16,7,20,"%string) = Done [16; 7; 20] ∧
  (length (text "1,,20"%string) ≤ 8)%nat ∧
  line_elements extract 8 (text "1,,20"%string) = Undefined.
Proof.
  assert (H : (length (text "16,7,20,"%string) ≤ 8)%nat) by (vm_compute; lia).
  assert (H' : (length (text "1,,20"%string) ≤ 8)%nat) by (vm_compute; lia).
  refine (conj H (conj _ (conj H' _))).
  - rewrite (proj1 (line_elements_are_tokens extract 8 (text "16,7,20,"%string) H)).
    reflexivity.
  - rewrite (proj1 (line_elements_are_tokens extract 8 (text "1,,20"%string) H')).
    reflexivity.
Defined.

Lemma line_elements_of_joined_pieces_example :
  join_commas [text "16"%string; text "7"%string; text "20"%string]
  = text "16,7,20"%string ∧
  line_elements extract 7 (text "16,7,20"%string) = Done [16; 7; 20] ∧
  join_commas [text "16"%string; text ""%string; text "20"%string]
  = text "16,,20"%string ∧
  line_elements extract 7 (text "16,,20"%string) = Undefined.
Proof.
  assert (H : ∀ p : list ascii, Forall (λ q, comma ∉ q)
                [text "16"%string; p; text "20"%string] ↔ comma ∉ p).
  { intros p. rewrite !Forall_cons, Forall_nil. 
    assert (H16 : comma ∉ text "16"%string).
    { intros Hin. repeat (apply elem_of_cons in Hin as [Hin|Hin];
        [discriminate Hin|]). by apply elem_of_nil in Hin. }
    assert (H20 : comma ∉ text "20"%string).
    { intros Hin. repeat (apply elem_of_cons in Hin as [Hin|Hin];
        [discriminate Hin|]). by apply elem_of_nil in Hin. }
    tauto. }
  assert (H7 : comma ∉ text "7"%string).
  { intros Hin. repeat (apply elem_of_cons in Hin as [Hin|Hin];
      [discriminate Hin|]). by apply elem_of_nil in Hin. }
  assert (H0 : comma ∉ text ""%string) by apply not_elem_of_nil.
  refine (conj eq_refl (conj _ (conj eq_refl _))).
  - exact (proj1 (line_elements_of_joined_pieces extract 7
                    [text "16"%string; text "7"%string; text "20"%string]
                    (text "20"%string) (proj2 (H _) H7) eq_refl
                    ltac:(discriminate) ltac:(vm_compute; lia))).
  - exact (proj1 (line_elements_of_joined_pieces extract 7
                    [text "16"%string; text ""%string; text "20"%string]
                    (text "20"%string) (proj2 (H _) H0) eq_refl
                    ltac:(discriminate) ltac:(vm_compute; lia))).
Defined.

(** ** Reading text and reading numbers *)

Section Refinement.
Variable to_int : list ascii → option Z.
Implicit Types line : list ascii.
Implicit Types fuel : nat.

Lemma bind_undefined {A B} (m : outcome A) (k : A → outcome B) :
  m ≠ OutOfFuel → (∀ a, k a = Undefined) → m ≫= k = Undefined.
Proof. intros Hm Hk. destruct m; [apply Hk|done|done]. Qed.

Lemma shift_one_fuel x : shift_one x ≠ OutOfFuel.
Proof. unfold shift_one. by destruct (_ && _). Qed.

Lemma store_fuel {A} (a : list A) i v : store a i v ≠ OutOfFuel.
Proof. unfold store. by destruct (decide _). Qed.

Lemma store_sequence_fuel seqs n index v :
  store_sequence seqs n index v ≠ OutOfFuel.
Proof.
  unfold store_sequence, load. destruct (seqs !! n) as [row|]; csimpl; [|done].
  pose proof (store_fuel row index v).
  destruct (store row index v); csimpl; [apply store_fuel|done..].
Qed.

Lemma read_elements_fuel (xs : list Z) n set index seqs :
  read_elements xs n set index seqs ≠ OutOfFuel.
Proof.
  revert set index seqs. induction xs as [|x xs IH]; intros set index seqs; [done|].
  simpl. pose proof (shift_one_fuel x).
  destruct (shift_one x) as [b| |]; csimpl; [|done..].
  pose proof (store_sequence_fuel seqs n index (Z.lor set b)).
  destruct (store_sequence _ _ _ _); csimpl; [apply IH|done..].
Qed.

Lemma mapM_cons_Some (p : list ascii) ps x :
  to_int p = Some x →
  mapM to_int (p :: ps) = (λ xs, x :: xs) <$> mapM to_int ps.
Proof. intros Hx. csimpl. rewrite Hx. csimpl. by destruct (mapM _ _). Qed.

Lemma read_text_elements_parsed fuel line n set index seqs :
  (length line ≤ fuel)%nat →
  read_text_elements to_int fuel line n set index seqs
  = match parse_line to_int line with
    | Some xs => read_elements xs n set index seqs
    | None => Undefined
    end.
Proof.
  assert (Hstep : ∀ p rest x fuel' set index seqs,
    to_int p = Some x →
    (∀ set index seqs,
       read_text_elements to_int fuel' rest n set index seqs
       = match mapM to_int (tokens rest) with
         | Some xs => read_elements xs n set index seqs
         | None => Undefined
         end) →
    (b ← shift_one x;
     seqs' ← store_sequence seqs n index (Z.lor set b);
     read_text_elements to_int fuel' rest n (Z.lor set b) (S index) seqs')
    = match mapM to_int (p :: tokens rest) with
      | Some xs => read_elements xs n set index seqs
      | None => Undefined
      end).
  { intros p rest x fuel' set0 index0 seqs0 Hx IH.
    rewrite (mapM_cons_Some p (tokens rest) x Hx).
    destruct (mapM to_int (tokens rest)) as [xs|] eqn:Exs;
      cbn [fmap option_fmap option_map read_elements].
    - destruct (shift_one x); csimpl; [|done..].
      destruct (store_sequence _ _ _ _); csimpl; [|done..].
      rewrite IH; by rewrite ?Exs.
    - apply bind_undefined; [apply shift_one_fuel|]. intros b.
      apply bind_undefined; [apply store_sequence_fuel|]. intros seqs'.
      rewrite IH; by rewrite ?Exs. }
  revert line set index seqs.
  induction fuel as [|fuel IH]; intros line set index seqs Hfuel.
  - destruct line; [done|simpl in Hfuel; lia].
  - destruct line as [|c s]; [done|]. cbn [read_text_elements].
    unfold parse_line.
    destruct (First_element_cases to_int (c :: s))
      as [[Hc E]|(p & s' & Hs & Hp & E)].
    + rewrite E, tokens_no_comma by done.
      change [c :: s] with ((c :: s) :: tokens []).
      destruct (to_int (c :: s)) as [x|] eqn:Ex.
      * etransitivity;
          [|apply (Hstep (c :: s) [] x fuel set index seqs Ex);
            intros; by destruct fuel].
        reflexivity.
      * csimpl. by rewrite Ex.
    + rewrite E, Hs, tokens_piece by done.
      destruct (to_int p) as [x|] eqn:Ex.
      * etransitivity;
          [|apply (Hstep p s' x fuel set index seqs Ex);
            intros set' index' seqs'; apply IH;
            rewrite Hs, length_app in Hfuel; simpl in Hfuel; lia].
        reflexivity.
      * csimpl. by rewrite Ex.
Qed.

Lemma read_text_lines_parsed fuel (lines : list (list ascii)) st :
  Forall (λ line, (length line ≤ fuel)%nat) lines →
  read_text_lines to_int fuel lines st
  = match parse_lines to_int lines with
    | Some ls => read_lines ls st
    | None => Undefined
    end.
Proof.
  intros Hfuel. revert st. induction Hfuel as [|line lines Hl _ IH]; intros st.
  - done.
  - unfold parse_lines in *. csimpl. rewrite read_text_elements_parsed by done.
    destruct (parse_line to_int line) as [xs|]; csimpl; [|done].
    destruct (mapM (parse_line to_int) lines) as [ls|] eqn:Els; csimpl.
    + destruct (read_elements _ _ _ _ _) as [[set seqs]| |]; csimpl; [|done..].
      destruct (store _ _ _); csimpl; [|done..]. apply IH.
    + apply bind_undefined; [apply read_elements_fuel|]. intros [set seqs].
      apply bind_undefined; [apply store_fuel|]. intros sets'. apply IH.
Qed.

(** X5: reading the text of the lines is reading the numbers of the lines:
    with [while (line != "")] run long enough, [Read_input] on the text
    does what it does on the lists of the values written for the pieces of
    the lines, and so does the whole program; when for one piece of a line
    nothing is written, the behaviour is undefined. *)
Theorem Read_input_text_parsed fuel (lines : list (list ascii)) st writable :
  Forall (λ line, (length line ≤ fuel)%nat) lines →
  Read_input_text to_int fuel (Some lines) st
  = match parse_lines to_int lines with
    | Some ls => Read_input (Some ls) st
    | None => Undefined
    end ∧
  Read_input_text to_int fuel None st = Read_input None st ∧
  main_text to_int fuel (Some lines) writable
  = match parse_lines to_int lines with
    | Some ls => main fuel (Some ls) writable
    | None => Undefined
    end ∧
  (parse_lines to_int lines = None ↔
   ∃ line p, line ∈ lines ∧ p ∈ tokens line ∧ to_int p = None).
Proof.
  intros Hfuel.
  assert (E : ∀ st, Read_input_text to_int fuel (Some lines) st
                    = match parse_lines to_int lines with
                      | Some ls => Read_input (Some ls) st
                      | None => Undefined
                      end).
  { intros st'. unfold Read_input_text, Read_input.
    rewrite read_text_lines_parsed by done.
    by destruct (parse_lines to_int lines). }
  split_and!; [done|done| |].
  - unfold main_text, main. rewrite E. by destruct (parse_lines to_int lines).
  - unfold parse_lines, parse_line. rewrite mapM_None, Exists_exists. split.
    + intros (line & Hin & (p & Hp & Ep)%mapM_None%Exists_exists). eauto.
    + intros (line & p & Hin & Hp & Ep). exists line. split; [done|].
      apply mapM_None, Exists_exists. eauto.
Qed.

End Refinement.

Lemma Read_input_text_parsed_scenario_A :
  Forall (λ line, (length line ≤ 100)%nat) scenario_A_text ∧
  parse_lines extract scenario_A_text = Some scenario_A ∧
  main_text extract 100 (Some scenario_A_text) true
  = main 100 (Some scenario_A) true.
Proof.
  assert (H : Forall (λ line, (length line ≤ 100)%nat) scenario_A_text)
    by by_decision.
  refine (conj H (conj eq_refl _)).
  exact (proj1 (proj2 (proj2 (Read_input_text_parsed extract 100
                                scenario_A_text initial true H)))).
Defined.

(** * The data of [Read_input] *)

Section Data.
Implicit Types X Y A e : Z.
Implicit Types es row : list Z.
Implicit Types lines : list (list Z).
Implicit Types fuel i t : nat.

Lemma mask_in_range es : Forall (λ e, 0 ≤ e < 64) es → 0 ≤ mask es < 2 ^ 64.
Proof.
  intros Hr. split; [apply mask_nonneg|].
  apply mask_bound; [apply mask_nonneg|]. intros i Hi.
  apply has_mask in Hi.
  - rewrite Forall_forall in Hr. apply Hr in Hi. lia.
  - eapply Forall_impl; [exact Hr|]. simpl. intros; lia.
Qed.

Lemma prefixes_lookup es t e :
  es !! t = Some e → prefixes es !! t = Some (mask (take (S t) es)).
Proof.
  intros Ht. pose proof (take_drop_middle es t e Ht) as Hsplit.
  assert (Hlen : length (take t es) = t).
  { rewrite length_take. apply lookup_lt_Some in Ht. lia. }
  rewrite <- Hsplit at 1. rewrite <- Hlen at 1. unfold prefixes.
  rewrite prefixes_from_lookup. f_equal. unfold mask. f_equal.
  by rewrite (take_S_r es t e).
Qed.

Lemma Read_input_arrays lines :
  within_capacity lines →
  ∃ st, Read_input (Some lines) initial = Done (true, st) ∧
        arrays_ok st ∧ loaded lines st ∧
        numbers_of_subsets st = numbers_of_subsets initial.
Proof.
  intros [Hlen Hr]. unfold Read_input.
  destruct (read_lines_ok lines [] (Globals 0 (sets initial) (sequences initial)
              (numbers_of_subsets initial)))
    as (st & E & Hok & Hst & Hh);
    [apply arrays_ok_initial|by apply loaded_nil|simpl; lia|done|].
  exists st. rewrite E. done.
Qed.

(** X6: for lines that fit into the arrays, repeated numbers and any order
    allowed, [Read_input] succeeds, counts the lines in [number], leaves the
    histogram alone and stores for line [i] the set of its numbers in
    [sets[i]] and the sets of its first [t + 1] numbers in
    [sequences[i][t]]: an ascending sequence that ends with [sets[i]]. *)
Theorem Read_input_stores_sets lines :
  within_capacity lines →
  ∃ st,
    Read_input (Some lines) initial = Done (true, st) ∧
    number st = length lines ∧
    numbers_of_subsets st = numbers_of_subsets initial ∧
    length (sets st) = MAX_NUMBER ∧
    length (sequences st) = MAX_NUMBER ∧
    ∀ i es, lines !! i = Some es →
      ∃ A row,
        sets st !! i = Some A ∧ sequences st !! i = Some row ∧
        length row = 64%nat ∧ 0 ≤ A < 2 ^ 64 ∧
        (∀ e, has A e ↔ e ∈ es) ∧
        (∀ t, (t < length es)%nat →
           ∃ s, row !! t = Some s ∧ ∀ e, has s e ↔ e ∈ take (S t) es) ∧
        (∀ t s s', (S t < length es)%nat →
           row !! t = Some s → row !! S t = Some s' → submask s s') ∧
        (∀ t, length es = S t → row !! t = Some A).
Proof.
  intros Hc. destruct (Read_input_arrays lines Hc) as (st & E & Hok & Hst & Hh).
  destruct Hok as (Hsets & Hseqs & Hrows).
  exists st. split_and!; [done|apply Hst|done..|].
  intros i es Hi. destruct (proj2 Hst i es Hi) as (Hset & tail & Hrow).
  destruct Hc as [_ Hc]. rewrite Forall_lookup in Hc.
  destruct (Hc i es Hi) as [_ Hr].
  assert (Hnn : ∀ l, Forall (λ e, 0 ≤ e) (take l es)).
  { intros l. apply Forall_take. eapply Forall_impl; [exact Hr|].
    simpl. intros; lia. }
  assert (Hcell : ∀ t, (t < length es)%nat →
            (prefixes es ++ tail) !! t = Some (mask (take (S t) es))).
  { intros t Ht. destruct (lookup_lt_is_Some_2 es t Ht) as [e He].
    rewrite lookup_app_l
      by (unfold prefixes; rewrite length_prefixes_from; lia).
    by eapply prefixes_lookup. }
  exists (mask es), (prefixes es ++ tail). split_and!; [done|done| | | | | | |].
  - rewrite Forall_forall in Hrows. apply Hrows.
    by eapply list_elem_of_lookup_2.
  - apply (mask_in_range es Hr).
  - apply (mask_in_range es Hr).
  - intros e. apply has_mask. rewrite <- (firstn_all es). apply Hnn.
  - intros t Ht. exists (mask (take (S t) es)). split; [by apply Hcell|].
    intros e. by apply has_mask.
  - intros t s s' Ht Hs Hs'.
    rewrite Hcell in Hs by lia. rewrite Hcell in Hs' by lia.
    injection Hs as <-. injection Hs' as <-.
    apply submask_has. intros e. rewrite !has_mask by done.
    intros [j [Hj ?]%lookup_take_Some]%list_elem_of_lookup.
    apply list_elem_of_lookup. exists j. apply lookup_take_Some. split; [done|lia].
  - intros t Ht. rewrite Hcell by lia. rewrite <- Ht. by rewrite firstn_all.
Qed.

Lemma Read_input_stores_sets_example :
  within_capacity [[5; 1; 5; 0]] ∧
  ∃ st A, Read_input (Some [[5; 1; 5; 0]]) initial = Done (true, st) ∧
          number st = 1%nat ∧ sets st !! 0%nat = Some A ∧
          ∀ e, has A e ↔ e ∈ [5; 1; 5; 0].
Proof.
  assert (Hc : within_capacity [[5; 1; 5; 0]]) by by_decision.
  split; [exact Hc|].
  destruct (Read_input_stores_sets [[5; 1; 5; 0]] Hc)
    as (st & E & Hn & _ & _ & _ & Hall).
  destruct (Hall 0%nat [5; 1; 5; 0] eq_refl)
    as (A & row & HA & _ & _ & _ & Hbits & _).
  exists st, A. split_and!; [exact E|exact Hn|exact HA|exact Hbits].
Defined.

End Data.

(** * What [Compute_numbers] changes *)

Section Frame.
Implicit Types h : list Z.
Implicit Types fuel i n : nat.

Lemma grows_refl h : grows h h.
Proof. split; [done|]. intros k v Hv. exists v. split; [done|lia]. Qed.

Lemma grows_trans h1 h2 h3 : grows h1 h2 → grows h2 h3 → grows h1 h3.
Proof.
  intros [Hl1 H1] [Hl2 H2]. split; [congruence|]. intros k v Hv.
  destruct (H1 k v Hv) as (v' & Hv' & ?).
  destruct (H2 k v' Hv') as (v'' & Hv'' & ?). exists v''. split; [done|lia].
Qed.

Lemma increment_grows h size h' : increment h size = Done h' → grows h h'.
Proof.
  unfold increment, load_at, store_at, load, store, int_result.
  destruct (size <? 0); [done|].
  destruct (h !! Z.to_nat size) as [v|] eqn:Ev; csimpl; [|done].
  destruct (_ && _); csimpl; [|done].
  destruct (decide _) as [Hlt|]; [|done]. intros [= <-].
  split; [by rewrite length_insert|]. intros k w Hw.
  destruct (decide (k = Z.to_nat size)) as [->|Hne].
  - rewrite list_lookup_insert_eq by done. exists (v + 1).
    split; [done|]. rewrite Ev in Hw. injection Hw as <-. lia.
  - rewrite list_lookup_insert_ne by done. exists w. split; [done|lia].
Qed.

Lemma count_if_new_grows c h size h' :
  count_if_new c h size = Done h' → grows h h'.
Proof.
  destruct c; simpl; [intros [= <-]; apply grows_refl|apply increment_grows].
Qed.

Lemma enumerate_grows fuel ss seqs i set subset size h size' h' :
  enumerate fuel ss seqs i set subset size h = Done (size', h') → grows h h'.
Proof.
  revert subset size h. induction fuel as [|fuel IH]; intros subset size h E.
  - simpl in E. destruct (subset =? set); [|done].
    injection E as <- <-. apply grows_refl.
  - simpl in E. destruct (subset =? set).
    { injection E as <- <-. apply grows_refl. }
    destruct (contained_in_previous ss subset i) as [c| |]; csimpl in E; [|done..].
    destruct (count_if_new c h size) as [h1| |] eqn:Ec; csimpl in E; [|done..].
    destruct (successor seqs i subset size) as [[subset' size1]| |];
      csimpl in E; [|done..].
    eapply grows_trans; [by eapply count_if_new_grows|by eapply IH].
Qed.

Lemma process_set_frame fuel st i st' :
  process_set fuel st i = Done st' →
  number st' = number st ∧ sets st' = sets st ∧
  sequences st' = sequences st ∧
  grows (numbers_of_subsets st) (numbers_of_subsets st').
Proof.
  unfold process_set. intros E.
  destruct (load (sets st) i) as [set| |]; csimpl in E; [|done..].
  destruct (enumerate _ _ _ _ _ _ _ _) as [[size h]| |] eqn:En;
    csimpl in E; [|done..].
  destruct (contained_in_previous _ _ _) as [c| |]; csimpl in E; [|done..].
  destruct (count_if_new c h size) as [h1| |] eqn:Ec; csimpl in E; [|done..].
  injection E as <-. split_and!; [done..|]. simpl.
  eapply grows_trans; [by eapply enumerate_grows|by eapply count_if_new_grows].
Qed.

Lemma process_from_frame fuel st i n st' :
  process_from fuel st i n = Done st' →
  number st' = number st ∧ sets st' = sets st ∧
  sequences st' = sequences st ∧
  grows (numbers_of_subsets st) (numbers_of_subsets st').
Proof.
  revert st i. induction n as [|n IH]; intros st i E.
  - injection E as <-. split_and!; [done..|apply grows_refl].
  - simpl in E. destruct (process_set fuel st i) as [st1| |] eqn:E1;
      csimpl in E; [|done..].
    destruct (process_set_frame _ _ _ _ E1) as (Hn1 & Hs1 & Hq1 & Hg1).
    destruct (IH _ _ E) as (Hn2 & Hs2 & Hq2 & Hg2).
    split_and!; [congruence..|]. by eapply grows_trans.
Qed.

(** X7: whatever the data and the fuel, a run of [Compute_numbers] that ends
    has changed nothing but [numbers_of_subsets]: [number], [sets] and
    [sequences] are as before, the histogram has as many cells as before
    and none of them is smaller. *)
Theorem Compute_numbers_only_counts_up fuel st st' :
  Compute_numbers fuel st = Done st' →
  number st' = number st ∧ sets st' = sets st ∧
  sequences st' = sequences st ∧
  length (numbers_of_subsets st') = length (numbers_of_subsets st) ∧
  ∀ k v, numbers_of_subsets st !! k = Some v →
         ∃ v', numbers_of_subsets st' !! k = Some v' ∧ v ≤ v'.
Proof.
  intros E. apply process_from_frame in E as (? & ? & ? & ? & ?). done.
Qed.

Lemma Compute_numbers_only_counts_up_example :
  ∃ st st', Read_input (Some scenario_B) initial = Done (true, st) ∧
            Compute_numbers 8 st = Done st' ∧
            sets st' = sets st ∧ sequences st' = sequences st.
Proof.
  assert (Hv : valid_input scenario_B) by by_decision.
  destruct (Read_input_ok scenario_B (valid_within_capacity _ Hv))
    as (st & E & Hst & Hzero).
  assert (Hrun : Compute_numbers 8 st
                 = Done (set_histogram st (expected (mask <$> scenario_B)))).
  { rewrite (Compute_numbers_spec 8 scenario_B st Hst Hzero
               (valid_input_wf _ Hv) ltac:(by_decision)).
    apply decide_True. by_decision. }
  exists st, (set_histogram st (expected (mask <$> scenario_B))).
  destruct (Compute_numbers_only_counts_up 8 st _ Hrun) as (_ & Hs & Hq & _).
  split_and!; [exact E|exact Hrun|exact Hs|exact Hq].
Defined.

End Frame.

(** * A histogram that is not zero at the start *)

Section Accumulation.
Implicit Types h : list Z.
Implicit Types lines : list (list Z).
Implicit Types fuel : nat.

Lemma stepped_adds_expected lines h :
  Forall wf_line lines → length h = 65%nat →
  stepped h (popcount <$> counted [] lines)
  = zip_with Z.add h (expected (mask <$> lines)).
Proof.
  intros Hwf Hlen. apply list_eq. intros k.
  rewrite stepped_lookup, lookup_zip_with.
  destruct (h !! k) as [v|] eqn:Ev; [|done]. simpl.
  apply lookup_lt_Some in Ev. rewrite Hlen in Ev.
  rewrite expected_lookup by done. simpl.
  by rewrite occurrences_counted.
Qed.

(** X8: [Compute_numbers] does not reset the histogram, it adds to it: on
    the data of a valid input and a histogram [h] of 65 cells in the range
    of [int], the run ends with the cellwise sum of [h] and the numbers to
    compute when all sums can be held by the cells, and in a signed
    overflow otherwise.  A second call of [Compute_numbers] would therefore
    double the numbers. *)
Theorem Compute_numbers_adds lines fuel h :
  valid_input lines → (enough_fuel lines ≤ fuel)%nat →
  length h = 65%nat → Forall (λ v, 0 ≤ v ≤ INT_MAX) h →
  ∃ st,
    Read_input (Some lines) initial = Done (true, st) ∧
    Compute_numbers fuel (set_histogram st h)
    = if decide (Forall (λ c, c ≤ INT_MAX)
                   (zip_with Z.add h (expected (mask <$> lines))))
      then Done (set_histogram st
                   (zip_with Z.add h (expected (mask <$> lines))))
      else Undefined.
Proof.
  intros Hv Hfuel Hlen Hh. pose proof (valid_input_wf lines Hv) as Hwf.
  destruct (Read_input_ok lines (valid_within_capacity lines Hv))
    as (st & E & Hst & _).
  exists st. split; [done|].
  rewrite (Compute_numbers_bump fuel lines)
    by (done || by apply enough_fuel_each).
  cbn [numbers_of_subsets set_histogram].
  rewrite bump_spec.
  - rewrite stepped_adds_expected by done.
    destruct (decide _); done.
  - done.
  - apply Forall_fmap, Forall_forall. intros X _. unfold compose.
    rewrite Hlen. pose proof (popcount_range X). lia.
Qed.

Lemma Compute_numbers_adds_example :
  valid_input scenario_B ∧ (enough_fuel scenario_B ≤ 8)%nat ∧
  ∃ st, Read_input (Some scenario_B) initial = Done (true, st) ∧
        Compute_numbers 8 (set_histogram st ([1; 3; 3; 1] ++ replicate 61 0))
        = Done (set_histogram st ([2; 6; 6; 2] ++ replicate 61 0)).
Proof.
  assert (Hv : valid_input scenario_B) by by_decision.
  assert (Hfuel : (enough_fuel scenario_B ≤ 8)%nat) by by_decision.
  refine (conj Hv (conj Hfuel _)).
  destruct (Compute_numbers_adds scenario_B 8 ([1; 3; 3; 1] ++ replicate 61 0)
              Hv Hfuel eq_refl ltac:(by_decision)) as (st & E & Hrun).
  exists st. split; [exact E|]. rewrite Hrun.
  rewrite decide_True by by_decision. f_equal.
Defined.

End Accumulation.

(** * What is written *)

Section Written.
Implicit Types h numbers rest : list Z.
Implicit Types lines : list (list Z).
Implicit Types k : nat.

Lemma written_app numbers rest :
  Forall (λ v, v ≠ 0) numbers → rest = [] ∨ head rest = Some 0 →
  written (numbers ++ rest) = numbers.
Proof.
  intros Hn Hr. induction Hn as [|v numbers Hv _ IH].
  - destruct Hr as [->|Hr]; [done|].
    destruct rest as [|w rest]; [done|]. injection Hr as ->. done.
  - simpl. destruct (Z.eqb_spec v 0); [done|]. by rewrite IH.
Qed.

Lemma written_split h :
  ∃ rest, h = written h ++ rest ∧ Forall (λ v, v ≠ 0) (written h) ∧
          (rest = [] ∨ head rest = Some 0).
Proof.
  induction h as [|v h (rest & E & Hn & Hr)].
  - exists []. split_and!; [done|constructor|by left].
  - simpl. destruct (Z.eqb_spec v 0) as [->|Hv].
    + exists (0 :: h). split_and!; [done|constructor|by right].
    + exists rest. split_and!; [simpl; congruence|by constructor|done].
Qed.

(** X10: [Write_output] writes nothing and returns false when the output
    file cannot be opened, and leaves out nothing but what follows the
    first zero otherwise: whatever the histogram, the numbers written are
    its cells before the first zero among the cells 0..64, or all of these
    cells when none is zero, and the only such list. *)
Theorem Write_output_stops_at_first_zero st :
  Write_output false st = (false, []) ∧
  ∃ numbers rest,
    Write_output true st = (true, numbers) ∧
    take 65 (numbers_of_subsets st) = numbers ++ rest ∧
    Forall (λ v, v ≠ 0) numbers ∧
    (rest = [] ∨ head rest = Some 0) ∧
    (length numbers ≤ 65)%nat ∧
    ∀ numbers' rest',
      take 65 (numbers_of_subsets st) = numbers' ++ rest' ∧
      Forall (λ v, v ≠ 0) numbers' ∧ (rest' = [] ∨ head rest' = Some 0) ↔
      numbers' = numbers ∧ rest' = rest.
Proof.
  split; [done|]. unfold Write_output.
  destruct (written_split (take 65 (numbers_of_subsets st)))
    as (rest & E & Hn & Hr).
  exists (written (take 65 (numbers_of_subsets st))), rest.
  split_and!; [done|done|done|done| |].
  - pose proof (f_equal length E) as Hl.
    rewrite length_app, length_take in Hl. lia.
  - intros numbers' rest'. split.
    + intros (E' & Hn' & Hr').
      assert (numbers' = written (take 65 (numbers_of_subsets st))) as ->.
      { rewrite E'. symmetry. by apply written_app. }
      split; [done|]. rewrite E in E' at 1. by apply app_inv_head in E'.
    + intros [-> ->]. done.
Qed.

Lemma length_filter_impl {A} (P Q : A → Prop)
    `{!∀ x, Decision (P x)} `{!∀ x, Decision (Q x)} (l : list A) :
  (∀ x, P x → Q x) → (length (filter P l) ≤ length (filter Q l))%nat.
Proof.
  intros HPQ. induction l as [|x l IH]; [done|].
  rewrite !filter_cons. destruct (decide (P x)) as [HP|].
  - rewrite decide_True by auto. simpl. lia.
  - destruct (decide (Q x)); simpl; lia.
Qed.

Lemma popcount_submask X A : submask X A → popcount X ≤ popcount A.
Proof.
  intros H. unfold popcount. apply inj_le, length_filter_impl.
  by apply submask_has.
Qed.

Lemma largest_ge lines es : es ∈ lines → (length es ≤ largest lines)%nat.
Proof.
  induction 1 as [es lines|es es' lines _ IH]; simpl; lia.
Qed.

Lemma largest_attained lines :
  lines ≠ [] → ∃ es, es ∈ lines ∧ length es = largest lines.
Proof.
  induction lines as [|es lines IH]; [done|]. intros _. simpl.
  destruct (decide (largest lines ≤ length es)%nat) as [Hle|Hgt].
  - exists es. split; [left|lia].
  - destruct lines as [|es' lines']; [simpl in Hgt; lia|].
    destruct IH as (es1 & Hin & Hl); [done|].
    exists es1. split; [by right|lia].
Qed.

(** The numbers of elements for which there is a set to count. *)
Lemma count_pos_largest lines k :
  Forall wf_line lines →
  0 < count (mask <$> lines) k ↔ lines ≠ [] ∧ (k ≤ largest lines)%nat.
Proof.
  intros Hwf. pose proof (masks_range lines Hwf) as Hm.
  rewrite count_pos. split.
  - intros (X & HX & Hk). apply elem_of_faces in HX as [_ Hc]; [|done].
    apply covered_exists in Hc as (A & HA & Hsub).
    apply list_elem_of_fmap in HA as (es & -> & Hes).
    split; [by intros ->; apply elem_of_nil in Hes|].
    apply popcount_submask in Hsub.
    rewrite popcount_mask in Hsub
      by (rewrite Forall_forall in Hwf; by apply Hwf).
    pose proof (largest_ge lines es Hes). lia.
  - intros [Hne Hk]. destruct (largest_attained lines Hne) as (es & Hes & Hl).
    rewrite Forall_forall in Hwf. pose proof (Hwf es Hes) as [Hnd Hr].
    assert (Hwt : wf_line (take k es)).
    { split; [|by apply Forall_take].
      eapply sublist_NoDup; [exact Hnd|apply sublist_take]. }
    exists (mask (take k es)). split.
    + apply elem_of_faces; [done|]. split; [apply mask_nonneg|].
      apply covered_exists. exists (mask es).
      split; [by apply list_elem_of_fmap_2|].
      apply submask_has. intros i.
      rewrite !has_mask by (by apply wf_line_nonneg).
      apply subseteq_take.
    + rewrite popcount_mask by done. rewrite length_take. lia.
Qed.

Lemma largest_bound lines : Forall wf_line lines → (largest lines ≤ 64)%nat.
Proof.
  induction 1 as [|es lines Hes _ IH]; simpl; [lia|].
  pose proof (wf_line_length es Hes). lia.
Qed.

Lemma written_expected lines :
  Forall wf_line lines → lines ≠ [] →
  written (take 65 (expected (mask <$> lines)))
  = count (mask <$> lines) <$> seq 0 (S (largest lines)).
Proof.
  intros Hwf Hne. pose proof (largest_bound lines Hwf) as Hb.
  rewrite take_ge by (rewrite length_expected; lia).
  unfold expected.
  replace 65%nat with (S (largest lines) + (64 - largest lines))%nat by lia.
  rewrite seq_app, fmap_app. apply written_app.
  - apply Forall_fmap, Forall_forall. intros k [_ Hk]%elem_of_seq. simpl.
    assert (0 < count (mask <$> lines) k); [|lia].
    apply count_pos_largest; [done|]. split; [done|lia].
  - destruct (64 - largest lines)%nat as [|d] eqn:Ed; [by left|right].
    simpl. f_equal.
    pose proof (count_nonneg (mask <$> lines) (S (largest lines))).
    destruct (decide (0 < count (mask <$> lines) (S (largest lines))))
      as [Hpos|]; [|lia].
    apply count_pos_largest in Hpos as [_ ?]; [lia|done].
Qed.

(** X9: for a valid input with at least one line and enough fuel, the
    output has one number for each [k] from 0 to the largest number of
    elements of a base set, at most 65 numbers: the number of sets with
    [k] elements contained in a base set, which is positive for these [k]
    and for no other; there is no output but a signed overflow when one of
    the numbers cannot be held by an [int].  For no line at all nothing is
    written. *)
Theorem output_up_to_largest fuel lines :
  valid_input lines → lines ≠ [] → (enough_fuel lines ≤ fuel)%nat →
  (largest lines ≤ 64)%nat ∧
  (∀ k, 0 < count (mask <$> lines) k ↔ (k ≤ largest lines)%nat) ∧
  output fuel lines
  = (if decide (fits (mask <$> lines))
     then Done (count (mask <$> lines) <$> seq 0 (S (largest lines)))
     else Undefined) ∧
  output fuel [] = Done [].
Proof.
  intros Hv Hne Hfuel. pose proof (valid_input_wf lines Hv) as Hwf.
  split_and!.
  - by apply largest_bound.
  - intros k. rewrite count_pos_largest by done. tauto.
  - rewrite output_histogram, histogram_spec by (done || apply Hv).
    destruct (decide _); [|done]. csimpl. f_equal. by apply written_expected.
  - rewrite output_histogram.
    assert (H1 : (length (@nil (list Z)) ≤ MAX_NUMBER)%nat)
      by (unfold MAX_NUMBER; simpl; lia).
    assert (H2 : Forall wf_line []) by apply Forall_nil_2.
    assert (H3 : (enough_fuel [] ≤ fuel)%nat) by (unfold enough_fuel; simpl; lia).
    rewrite (histogram_spec fuel [] H1 H2 H3).
    rewrite decide_True by by_decision. done.
Qed.

Lemma output_up_to_largest_scenario_A :
  largest scenario_A = 5%nat ∧
  output 100 scenario_A = Done [1; 9; 18; 15; 6; 1].
Proof.
  destruct (output_up_to_largest 100 scenario_A) as (_ & _ & E & _);
    [by_decision|done|by_decision|].
  split; [done|]. rewrite E. rewrite decide_True by by_decision.
  f_equal.
Defined.

End Written.

(** * The search loop on any row *)

Section Search.
Implicit Types X s : Z.
Implicit Types row rest es : list Z.
Implicit Types index t k : nat.

Lemma search_all rest X index :
  Forall (λ s, submask s X) rest → search rest X index = Undefined.
Proof.
  intros H. revert index. induction H as [|s rest Hs _ IH]; intros index; [done|].
  simpl. apply lor_absorb in Hs. rewrite Hs, Z.eqb_refl. apply IH.
Qed.

Lemma search_undefined rest X index :
  search rest X index = Undefined → Forall (λ s, submask s X) rest.
Proof.
  revert index. induction rest as [|s rest IH]; intros index E; [constructor|].
  simpl in E. destruct (Z.eqb_spec (Z.lor X s) X) as [Heq|]; [|done].
  constructor; [by apply lor_absorb|by eapply IH].
Qed.

Lemma search_done rest X index t s :
  rest !! t = Some s → ¬ submask s X →
  (∀ k s', (k < t)%nat → rest !! k = Some s' → submask s' X) →
  search rest X index = Done (index + t)%nat.
Proof.
  revert index t. induction rest as [|s0 rest IH]; intros index t Ht Hs Hbefore;
    [done|].
  simpl. destruct t as [|t].
  - injection Ht as ->. rewrite <- lor_absorb in Hs.
    rewrite (proj2 (Z.eqb_neq _ _) Hs). f_equal. lia.
  - assert (H0 : submask s0 X) by (apply (Hbefore 0%nat); [lia|done]).
    apply lor_absorb in H0. rewrite H0, Z.eqb_refl.
    rewrite (IH (S index) t); [f_equal; lia|done|done|].
    intros k s' Hk Hs'. apply (Hbefore (S k)); [lia|done].
Qed.

Lemma search_total rest X index : search rest X index ≠ OutOfFuel.
Proof.
  revert index. induction rest as [|s rest IH]; intros index; [done|].
  simpl. destruct (_ =? _); [apply IH|done].
Qed.

(** The cells of a row behind those written for its line are zero, as they
    were at the start. *)
Lemma read_lines_rows (rest done : list (list Z)) st :
  arrays_ok st → number st = length done →
  (∀ i es', done !! i = Some es' →
     sequences st !! i = Some (prefixes es' ++ replicate (64 - length es') 0)) →
  (∀ i, (length done ≤ i < MAX_NUMBER)%nat →
     sequences st !! i = Some (replicate 64 0)) →
  (length done + length rest ≤ MAX_NUMBER)%nat →
  Forall (λ es', (length es' ≤ 64)%nat ∧ Forall (λ e, 0 ≤ e < 64) es') rest →
  ∃ st', read_lines rest st = Done st' ∧
         ∀ i es', (done ++ rest) !! i = Some es' →
           sequences st' !! i
           = Some (prefixes es' ++ replicate (64 - length es') 0).
Proof.
  revert done st.
  induction rest as [|line rest IH]; intros done st Hok Hnum Hrows Hzero Hlen Hr.
  - exists st. split; [done|]. by rewrite app_nil_r.
  - apply Forall_cons in Hr as [[Hl Hx] Hr]. simpl in Hlen.
    pose proof Hok as (Hsets & Hseqs & Hrl).
    assert (∃ zeros, zeros = replicate 64 0 ∧
                     sequences st !! number st = Some zeros)
      as (zeros & Ez & Hrow) by (eexists; split; [done|apply Hzero; lia]).
    assert (Hz : length zeros = 64%nat) by (by rewrite Ez, length_replicate).
    simpl. rewrite (read_elements_ok line _ _ _ _ _ Hrow Hx) by (simpl; lia).
    csimpl. unfold store. rewrite decide_True by lia. csimpl.
    match goal with
    | |- context [read_lines rest ?s] =>
        destruct (IH (done ++ [line]) s) as (st' & E & H)
    end.
    + unfold arrays_ok. cbn [sets sequences]. rewrite !length_insert.
      split_and!; [done..|]. apply Forall_insert; [done|].
      rewrite ?length_app, ?length_take, ?length_prefixes_from, ?length_drop.
      simpl. lia.
    + cbn [number]. rewrite length_app. simpl. lia.
    + intros i es' Hi. cbn [sequences].
      destruct (decide (i = number st)) as [->|Hne].
      * rewrite Hnum in Hi. rewrite list_lookup_middle in Hi by done.
        injection Hi as <-. rewrite list_lookup_insert_eq by lia.
        rewrite Ez, ?take_0, drop_replicate. done.
      * rewrite list_lookup_insert_ne by done. apply Hrows.
        apply lookup_app_Some in Hi as [Hi|[Hge Hi]]; [done|].
        apply list_lookup_singleton_Some in Hi as [Hi _]. lia.
    + intros i Hi. cbn [sequences]. rewrite length_app in Hi. simpl in Hi.
      rewrite list_lookup_insert_ne by lia. apply Hzero. lia.
    + rewrite length_app. simpl. lia.
    + done.
    + exists st'. rewrite E. split; [done|]. by rewrite <- app_assoc in H.
Qed.

Lemma Read_input_rows (lines : list (list Z)) :
  within_capacity lines →
  ∃ st, Read_input (Some lines) initial = Done (true, st) ∧
        loaded lines st ∧
        ∀ i es, lines !! i = Some es →
          sequences st !! i
          = Some (prefixes es ++ replicate (64 - length es) 0).
Proof.
  intros Hc. destruct (Read_input_ok lines Hc) as (st & E & Hst & _).
  exists st. split_and!; [done..|]. destruct Hc as [Hlen Hr].
  destruct (read_lines_rows lines [] (Globals 0 (sets initial)
              (sequences initial) (numbers_of_subsets initial)))
    as (st' & E' & H); [apply arrays_ok_initial|done|done| |simpl; lia|done|].
  { intros i Hi. cbn [sequences initial]. apply lookup_replicate_2.
    simpl in Hi. lia. }
  unfold Read_input in E. rewrite E' in E. csimpl in E. by injection E as <-.
Qed.

Lemma prefixes_submask es : Forall (λ e, 0 ≤ e) es →
  Forall (λ s, submask s (mask es)) (prefixes es).
Proof.
  intros Hnn. apply Forall_lookup. intros t s Hs.
  destruct (lookup_lt_is_Some_2 es t) as [e He].
  { apply lookup_lt_Some in Hs. unfold prefixes in Hs.
    by rewrite length_prefixes_from in Hs. }
  rewrite (prefixes_lookup es t e He) in Hs. injection Hs as <-.
  apply submask_has. intros i. rewrite !has_mask.
  - apply subseteq_take.
  - done.
  - by apply Forall_take.
Qed.

(** X11: the loop [while ((subset | sequences[i][index]) == subset) index++]
    on any row ends at [t] exactly when the cell [t] is the first one that
    is not contained in [subset], and runs off the row, reading behind its
    end, exactly when every cell is contained in [subset]; no third
    outcome exists.  The latter is the case for the whole base set on its
    own row, on the data that [Read_input] stores for lines that fit into
    the arrays: there lines 135 to 139 have no successor to give, and the
    test [subset != set] of the enclosing loop is what keeps the search
    inside the row. *)
Theorem search_ends_at_first_uncontained row X :
  (∀ t, search row X 0 = Done t ↔
        (∃ s, row !! t = Some s ∧ ¬ submask s X) ∧
        ∀ k s, (k < t)%nat → row !! k = Some s → submask s X) ∧
  (search row X 0 = Undefined ↔ Forall (λ s, submask s X) row) ∧
  search row X 0 ≠ OutOfFuel ∧
  (∀ es n, Forall (λ e, 0 ≤ e) es →
           search (prefixes es ++ replicate n 0) (mask es) 0 = Undefined) ∧
  ∀ lines : list (list Z), within_capacity lines →
    ∃ st, Read_input (Some lines) initial = Done (true, st) ∧
          ∀ i es, lines !! i = Some es →
            ∃ A row', sets st !! i = Some A ∧ sequences st !! i = Some row' ∧
                      search row' A 0 = Undefined ∧
                      ∀ size, successor (sequences st) i A size = Undefined.
Proof.
  split_and!.
  - intros t. split.
    + intros E. apply search_first in E as (_ & (s & Hs & Hn) & Hbefore).
      rewrite Nat.sub_0_r in Hs. split; [eauto|].
      intros k s' Hk. by apply Hbefore.
    + intros [(s & Hs & Hn) Hbefore]. by rewrite (search_done row X 0 t s).
  - split; [apply search_undefined|apply search_all].
  - apply search_total.
  - intros es n Hnn. apply search_all, Forall_app. split.
    + by apply prefixes_submask.
    + apply Forall_replicate, submask_zero.
  - intros lines Hc. destruct (Read_input_rows lines Hc) as (st & E & Hst & Hrows).
    exists st. split; [done|]. intros i es Hi.
    destruct Hst as [_ Hst]. destruct (Hst i es Hi) as [Hset _].
    assert (Hs : search (prefixes es ++ replicate (64 - length es) 0)
                   (mask es) 0 = Undefined).
    { apply search_all, Forall_app. split.
      - apply prefixes_submask. destruct Hc as [_ Hr].
        rewrite Forall_forall in Hr.
        destruct (Hr es (list_elem_of_lookup_2 _ _ _ Hi)) as [_ Hx].
        eapply Forall_impl; [exact Hx|]. simpl. intros; lia.
      - apply Forall_replicate, submask_zero. }
    exists (mask es), (prefixes es ++ replicate (64 - length es) 0).
    split_and!; [done|by apply Hrows|done|].
    intros size. unfold successor, load. rewrite (Hrows i es Hi). csimpl.
    by rewrite Hs.
Qed.

End Search.

(** * The program from the text of the input to the numbers written *)

Section Program.
Variable to_int : list ascii → option Z.
Implicit Types texts : list (list ascii).
Implicit Types lines : list (list Z).
Implicit Types fuel : nat.

(** X12: [main] on the text of an input, [x_stream >> x] being any
    function of the piece that is converted.  Nothing is computed or
    written when the input file cannot be opened.  When a value is written
    for every piece and these values make a valid input with at least one
    line, the run ends with the numbers to compute in [numbers_of_subsets]
    and, when the output file can be opened, has written the number of
    sets with [k] elements contained in a base set for [k] from 0 to the
    largest number of elements of a base set, and nothing when it cannot
    be opened; the run is a signed overflow when one of the numbers cannot
    be held by an [int]. *)
Theorem main_text_writes_counts fuel texts lines writable :
  parse_lines to_int texts = Some lines →
  valid_input lines → lines ≠ [] →
  Forall (λ line, (length line ≤ fuel)%nat) texts →
  (enough_fuel lines ≤ fuel)%nat →
  main_text to_int fuel None writable = Done None ∧
  ∃ st,
    Read_input (Some lines) initial = Done (true, st) ∧
    main_text to_int fuel (Some texts) writable
    = if decide (fits (mask <$> lines))
      then Done (Some (set_histogram st (expected (mask <$> lines)),
                       (writable,
                        if writable
                        then count (mask <$> lines) <$> seq 0 (S (largest lines))
                        else [])))
      else Undefined.
Proof.
  intros Hparse Hv Hne Htext Hfuel. split; [done|].
  pose proof (valid_input_wf _ Hv) as Hwf.
  destruct (Read_input_ok _ (valid_within_capacity _ Hv)) as (st & E & Hst & Hzero).
  exists st. split; [done|].
  unfold main_text, Read_input_text. unfold Read_input in E.
  rewrite (read_text_lines_parsed to_int fuel texts) by done.
  rewrite Hparse.
  destruct (read_lines _ _) as [st0| |]; csimpl in E; [|done..].
  injection E as ->. csimpl.
  rewrite (Compute_numbers_spec fuel _ st Hst Hzero Hwf Hfuel).
  destruct (decide _); [|done]. csimpl. do 3 f_equal.
  unfold Write_output. destruct writable; [|done]. f_equal.
  cbn [numbers_of_subsets set_histogram]. by apply written_expected.
Qed.

End Program.

Lemma main_text_writes_counts_scenario_A :
  parse_lines extract scenario_A_text = Some scenario_A ∧
  ∃ st, main_text extract 100 (Some scenario_A_text) true
        = Done (Some (st, (true, [1; 9; 18; 15; 6; 1]))).
Proof.
  split; [reflexivity|].
  destruct (main_text_writes_counts extract 100 scenario_A_text scenario_A true)
    as (_ & st & _ & E);
    [reflexivity|by_decision|done|by_decision|by_decision|].
  exists (set_histogram st (expected (mask <$> scenario_A))).
  rewrite E. rewrite decide_True by by_decision. do 3 f_equal.
Defined.

Lemma search_ends_at_first_uncontained_example :
  search [1; 3; 7; 0] 3 0 = Done 2%nat ∧ search [1; 3; 7; 0] 7 0 = Undefined.
Proof.
  destruct (search_ends_at_first_uncontained [1; 3; 7; 0] 3) as (Hdone & _).
  destruct (search_ends_at_first_uncontained [1; 3; 7; 0] 7) as (_ & Hun & _).
  split.
  - apply Hdone. split.
    + exists 7. split; [reflexivity|]. unfold submask. discriminate.
    + intros [|[|k]] s Hk Hs; [| |lia]; injection Hs as <-; reflexivity.
  - apply Hun. repeat constructor.
Defined.

